(** * Genetic drift simulation: a shallow embedding of
      [genetic_drift_simulation.py] and the properties of its engine.

    Conventions of the embedding.
    - A Python [str] is a [string]; [s[i]] is [getitem], which raises
      [IndexError] out of range, as Python does for a non-negative index.
    - A population is a [list string]; [p[i]] is [getitem_list].
    - Python numbers that meet [/] or a comparison with a float (the
      mutation rate, the random draws, [N / 2], the average distance) are
      rationals [Q]: comparisons of finite floats are exact on them, the
      quotient is the exact one (binary64 rounding is not modelled), and
      [/] raises [ZeroDivisionError] on a zero divisor. Two things lie
      outside the rationals and are treated apart:
      a rate that is [nan] or infinite ([pyfloat], [mutate_float],
      [main_float]), and an [int] too large for a float, on which Python's
      [/] raises [OverflowError] ([fits_float], [hint_in_float_range]
      state the range in which it does not).
    - Counters and sizes are [nat].
    - The module [random] is the class [RandomSource]: a state, the draw
      [random()] and the index draw behind [random.choice].
    - A [for] loop over [range] is [for_each] over the list of its indices,
      in the error monad [result]. *)

From Stdlib Require Import QArith.
From Stdlib Require Import Arith Lia List Bool.
From Stdlib Require Import Ascii String.
Import ListNotations.

Local Open Scope nat_scope.
Local Open Scope string_scope.
Local Open Scope list_scope.

(** ** Exceptions and the error monad *)

Inductive exn : Type :=
| IndexError
| ZeroDivisionError.

Inductive result (A : Type) : Type :=
| Ok (a : A)
| Raise (e : exn).

Arguments Ok {A} a.
Arguments Raise {A} e.

Definition bind {A B : Type} (m : result A) (k : A -> result B) : result B :=
  match m with
  | Ok a => k a
  | Raise e => Raise e
  end.

Notation "x <- m ;; k" := (bind m (fun x => k))
  (at level 61, m at next level, right associativity).
Notation "' p <- m ;; k" := (bind m (fun x => match x with p => k end))
  (at level 61, p pattern, m at next level, right associativity).

(** [range(lo, hi)] *)
Definition range (lo hi : nat) : list nat := seq lo (hi - lo).

(** [for i in iter: s = body(i, s)], stopping at the first exception. *)
Fixpoint for_each {St : Type} (iter : list nat) (body : nat -> St -> result St)
  (s : St) : result St :=
  match iter with
  | [] => Ok s
  | i :: rest => s' <- body i s ;; for_each rest body s'
  end.

(** The states a loop goes through: the state before each iteration and the
    state the loop ends in (up to the first exception). *)
Fixpoint loop_states {St : Type} (iter : list nat) (body : nat -> St -> result St)
  (s : St) : list St :=
  s :: match iter with
       | [] => []
       | i :: rest =>
           match body i s with
           | Ok s' => loop_states rest body s'
           | Raise _ => []
           end
       end.

(** ** Sequences *)

(** [s[index]] on a string *)
Definition getitem (s : string) (index : nat) : result ascii :=
  match String.get index s with
  | Some c => Ok c
  | None => Raise IndexError
  end.

(** [p[index]] on a list *)
Definition getitem_list {A : Type} (p : list A) (index : nat) : result A :=
  match nth_error p index with
  | Some x => Ok x
  | None => Raise IndexError
  end.

(** [s += c] *)
Definition append_char (s : string) (c : ascii) : string :=
  s ++ String c EmptyString.

Definition population : Type := list string.

(** [compare_sequences(sequence1, sequence2)] *)
Definition compare_sequences (sequence1 sequence2 : string) : result nat :=
  for_each (range 0 (String.length sequence1))
    (fun index num_differences =>
       c1 <- getitem sequence1 index ;;
       c2 <- getitem sequence2 index ;;
       if negb (Ascii.eqb c1 c2)
       then Ok (num_differences + 1)
       else Ok num_differences)
    0.

(** The positions below [len(a)] at which [a] and [b] hold different
    symbols (a position missing in [b] counts as different). *)
Definition differs_at (a b : string) (i : nat) : bool :=
  match String.get i a, String.get i b with
  | Some x, Some y => negb (Ascii.eqb x y)
  | None, None => false
  | _, _ => true
  end.

Definition differing_positions (a b : string) : list nat :=
  filter (differs_at a b) (seq 0 (String.length a)).

(** The Hamming count of the spec: the number of such positions. *)
Definition hamming (a b : string) : nat :=
  List.length (differing_positions a b).

(** ** Numbers *)

(** A Python [int] used where a float is expected. *)
Definition Qnat (n : nat) : Q := inject_Z (Z.of_nat n).

(** [x < y] on numbers; [Qle_bool] is [x <= y]. *)
Definition Qlt_bool (x y : Q) : bool :=
  (Qnum x * QDen y <? Qnum y * QDen x)%Z.

(** [a / b], true division *)
Definition truediv (a b : Q) : result Q :=
  if Qeq_bool b 0 then Raise ZeroDivisionError else Ok (a / b)%Q.

(** ** The random module *)

(** [random] is [random.random()], a draw in [[0,1)]; [randbelow n] is the
    index draw [_randbelow(n)] that [random.choice] makes on a sequence of
    length [n]. Both return the next state of the generator. *)
Class RandomSource (R : Type) : Type := {
  random : R -> Q * R;
  randbelow : nat -> R -> nat * R;
  random_unit_interval :
    forall r, (0 <= fst (random r))%Q /\ (fst (random r) < 1)%Q;
  randbelow_lt : forall n r, 0 < n -> fst (randbelow n r) < n
}.

Section Engine.

Context {R : Type} {RS : RandomSource R}.

(** [random.choice(seq)] *)
Definition choice {A : Type} (seq : list A) (r : R) : result (A * R) :=
  let (i, r) := randbelow (List.length seq) r in
  x <- getitem_list seq i ;;
  Ok (x, r).

Definition nucleotide_choices : list ascii := ["C"; "T"; "G"]%char.

(** One iteration of the loop of [mutate]: [if likelihood <= mutation_rate]
    ... [elif likelihood > mutation_rate] ..., and nothing is appended when
    neither test holds (on rationals one of them always does, see
    [Qle_bool_false_lt]). *)
Definition mutate_site (mutation_rate : Q) (generation_sequence : string)
  (index : nat) (st : string * R) : result (string * R) :=
  let (new_generation_sequence, r) := st in
  let (likelihood, r) := random r in
  if Qle_bool likelihood mutation_rate then
    '(c, r) <- choice nucleotide_choices r ;;
    Ok (append_char new_generation_sequence c, r)
  else if Qlt_bool mutation_rate likelihood then
    c <- getitem generation_sequence index ;;
    Ok (append_char new_generation_sequence c, r)
  else Ok (new_generation_sequence, r).

(** [mutate(mutation_rate, generation_sequence)] *)
Definition mutate (mutation_rate : Q) (generation_sequence : string) (r : R)
  : result (string * R) :=
  for_each (range 0 (String.length generation_sequence))
    (mutate_site mutation_rate generation_sequence)
    ("", r).

(** One iteration of the loop of [reproduce]. *)
Definition reproduce_one (mutation_rate : Q) (prev_generation : population)
  (index : nat) (st : population * R) : result (population * R) :=
  let (new_generation, r) := st in
  parent <- getitem_list prev_generation index ;;
  '(child, r) <- mutate mutation_rate parent r ;;
  Ok (new_generation ++ [child], r).

(** [reproduce(mutation_rate, prev_generation)] *)
Definition reproduce (mutation_rate : Q) (prev_generation : population) (r : R)
  : result (population * R) :=
  for_each (range 0 (List.length prev_generation))
    (reproduce_one mutation_rate prev_generation)
    ([], r).

End Engine.

(** [initialize_original_sequence(population_size_N, num_of_base_pairs_L)] *)
Definition initialize_original_sequence (population_size_N num_of_base_pairs_L : nat)
  : population :=
  fold_left
    (fun initial_sequence _ =>
       let indiv_sequence :=
         fold_left (fun indiv_sequence _ => append_char indiv_sequence "A"%char)
           (range 0 num_of_base_pairs_L) "" in
       initial_sequence ++ [indiv_sequence])
    (range 0 population_size_N) [].

(** The first half of [genetic_distance]: the list [distances]. *)
Definition pairwise_distances (generation : population) : result (list nat) :=
  for_each (range 0 (List.length generation))
    (fun index distances =>
       for_each (range (index + 1) (List.length generation))
         (fun index2 distances =>
            s1 <- getitem_list generation index ;;
            s2 <- getitem_list generation index2 ;;
            d <- compare_sequences s1 s2 ;;
            Ok (distances ++ [d]))
         distances)
    [].

(** [for value in distances: sum_of_distances += value] *)
Definition sum_values (distances : list nat) : nat :=
  fold_left (fun sum_of_distances value => sum_of_distances + value) distances 0.

(** [genetic_distance(generation, population_size_N, num_of_base_pairs_L)] *)
Definition genetic_distance (generation : population) (population_size_N : Q)
  (num_of_base_pairs_L : nat) : result Q :=
  distances <- pairwise_distances generation ;;
  let sum_of_distances := sum_values distances in
  q <- truediv (Qnat sum_of_distances) population_size_N ;;
  truediv q (Qnat num_of_base_pairs_L).

(** [split_populations(generation_sequence, population_size_N)] *)
Definition split_populations (generation_sequence : population)
  (population_size_N : Q) : result (population * population) :=
  for_each (range 0 (List.length generation_sequence))
    (fun index '(population1, population2) =>
       if Qlt_bool (Qnat index) (population_size_N / 2)%Q then
         x <- getitem_list generation_sequence index ;;
         Ok (population1 ++ [x], population2)
       else
         x <- getitem_list generation_sequence index ;;
         Ok (population1, population2 ++ [x]))
    ([], []).

(** [print_output(avg_distance, generations)]: the rows of the table it
    prints, one per entry of [generations]. *)
Definition print_output (avg_distance : list Q) (generations : list nat)
  : result (list (nat * Q)) :=
  for_each (range 0 (List.length generations))
    (fun index rows =>
       g <- getitem_list generations index ;;
       d <- getitem_list avg_distance index ;;
       Ok (rows ++ [(g, d)]))
    [].

(** ** The controller *)

(** The local variables of [main] that the simulation reads and writes.
    [population1] and [population2] are unbound until the split; they are
    empty here until then and are not read before. *)
Record locals (R : Type) : Type := mkLocals {
  new_generation_sequence : population;
  population1 : population;
  population2 : population;
  avg_genetic_distances : list Q;
  generations : list nat;
  generation_number : nat;
  rng : R
}.

Arguments mkLocals {R}.
Arguments new_generation_sequence {R}.
Arguments population1 {R}.
Arguments population2 {R}.
Arguments avg_genetic_distances {R}.
Arguments generations {R}.
Arguments generation_number {R}.
Arguments rng {R}.

(** [print("Average genetic distance: " + str(genetic_distance(...)))]:
    what is printed is not modelled, the evaluation and its exceptions are. *)
Definition print_distance (generation : population) (population_size_N : Q)
  (num_of_base_pairs_L : nat) : result unit :=
  _ <- genetic_distance generation population_size_N num_of_base_pairs_L ;;
  Ok tt.

Section Controller.

Context {R : Type} {RS : RandomSource R}.

(** The inputs of [main] after its validation loops; [list_all_generations]
    is [true] for the answer Y. *)
Variables (population_size_N num_of_base_pairs_L : nat).
Variable mutation_rate : Q.
Variables (generation_g total_generations_G : nat).
Variable list_all_generations : bool.

(** [population_size_N / 2] *)
Definition half_N : Q := (Qnat population_size_N / 2)%Q.

(** Body of [for generation in range(0, generation_g)], the loop before the
    split. *)
Definition pre_split_body (generation : nat) (st : locals R) : result (locals R) :=
  let generations' := generations st ++ [generation_number st] in
  d <- genetic_distance (new_generation_sequence st)
         (Qnat population_size_N) num_of_base_pairs_L ;;
  let avg_genetic_distances' := avg_genetic_distances st ++ [d] in
  _ <- (if list_all_generations
        then print_distance (new_generation_sequence st)
               (Qnat population_size_N) num_of_base_pairs_L
        else Ok tt) ;;
  '(new_generation_sequence', r) <-
     reproduce mutation_rate (new_generation_sequence st) (rng st) ;;
  Ok (mkLocals new_generation_sequence' (population1 st) (population2 st)
        avg_genetic_distances' generations' (generation_number st + 1) r).

(** Body of [for generation in range(generation_g, total_generations_G)],
    the loop after the split. Both calls of [reproduce] assign
    [new_generation_sequence]. *)
Definition post_split_body (generation : nat) (st : locals R) : result (locals R) :=
  let generations' := generations st ++ [generation_number st] in
  d1 <- genetic_distance (population1 st) half_N num_of_base_pairs_L ;;
  let avg_genetic_distances' := avg_genetic_distances st ++ [d1] in
  _ <- (if list_all_generations
        then print_distance (population1 st) half_N num_of_base_pairs_L
        else Ok tt) ;;
  '(new_generation_sequence', r) <-
     reproduce mutation_rate (population1 st) (rng st) ;;
  let generations'' := generations' ++ [generation_number st] in
  d2 <- genetic_distance (population2 st) half_N num_of_base_pairs_L ;;
  let avg_genetic_distances'' := avg_genetic_distances' ++ [d2] in
  _ <- (if list_all_generations
        then print_distance (population2 st) half_N num_of_base_pairs_L
        else Ok tt) ;;
  '(new_generation_sequence'', r) <-
     reproduce mutation_rate (population2 st) r ;;
  Ok (mkLocals new_generation_sequence'' (population1 st) (population2 st)
        avg_genetic_distances'' generations'' (generation_number st + 1) r).

(** Body of [for generation in range(0, total_generations_G)], the loop of
    the branch without a split. *)
Definition no_split_body (generation : nat) (st : locals R) : result (locals R) :=
  let generations' := generations st ++ [generation_number st] in
  d <- genetic_distance (new_generation_sequence st)
         (Qnat population_size_N) num_of_base_pairs_L ;;
  let avg_genetic_distances' := avg_genetic_distances st ++ [d] in
  _ <- print_distance (new_generation_sequence st)
         (Qnat population_size_N) num_of_base_pairs_L ;;
  '(new_generation_sequence', r) <-
     reproduce mutation_rate (new_generation_sequence st) (rng st) ;;
  Ok (mkLocals new_generation_sequence' (population1 st) (population2 st)
        avg_genetic_distances' generations' (generation_number st + 1) r).

(** The locals when the branch is chosen: [initial_sequence] built, both
    lists empty, [generation_number = 1]. *)
Definition initial_locals (r : R) : locals R :=
  mkLocals (initialize_original_sequence population_size_N num_of_base_pairs_L)
    [] [] [] [] 1 r.

(** [population1, population2 = split_populations(new_generation_sequence,
    population_size_N)] *)
Definition split_step (st : locals R) : result (locals R) :=
  '(p1, p2) <- split_populations (new_generation_sequence st)
                 (Qnat population_size_N) ;;
  Ok (mkLocals (new_generation_sequence st) p1 p2
        (avg_genetic_distances st) (generations st) (generation_number st)
        (rng st)).

(** The branch [if generation_g < total_generations_G]. *)
Definition split_branch (r : R) : result (locals R) :=
  st <- for_each (range 0 generation_g) pre_split_body (initial_locals r) ;;
  st <- split_step st ;;
  st <- for_each (range generation_g total_generations_G) post_split_body st ;;
  _ <- (if negb list_all_generations
        then _ <- print_distance (population1 st) half_N num_of_base_pairs_L ;;
             print_distance (population2 st) half_N num_of_base_pairs_L
        else Ok tt) ;;
  Ok st.

(** The branch [else]. *)
Definition no_split_branch (r : R) : result (locals R) :=
  st <- for_each (range 0 total_generations_G) no_split_body (initial_locals r) ;;
  _ <- (if negb list_all_generations
        then print_distance (new_generation_sequence st)
               (Qnat population_size_N) num_of_base_pairs_L
        else Ok tt) ;;
  Ok st.

(** [main()], from the validated inputs on: the final locals and the rows
    of the table of [print_output]. *)
Definition main (r : R) : result (locals R * list (nat * Q)) :=
  st <- (if Nat.ltb generation_g total_generations_G
         then split_branch r
         else no_split_branch r) ;;
  rows <- print_output (avg_genetic_distances st) (generations st) ;;
  Ok (st, rows).

End Controller.

(** ** A concrete random source: two streams read by a cursor *)

(** The generator whose [n]-th call returns [u n] when it is [random()] and
    [k n] reduced below the bound when it is an index draw. *)
Definition stream_random (u : nat -> Q) (n : nat) : Q * nat := (u n, S n).

Definition stream_randbelow (k : nat -> nat) (bound n : nat) : nat * nat :=
  (k n mod bound, S n).

Lemma stream_randbelow_lt (k : nat -> nat) (bound n : nat) :
  0 < bound -> fst (stream_randbelow k bound n) < bound.
Proof.
  intros Hb. unfold stream_randbelow. cbn [fst].
  apply Nat.mod_upper_bound. lia.
Qed.

(** Every stream of draws in [[0,1)] and every stream of picks is a random
    source. *)
Definition stream_source (u : nat -> Q) (k : nat -> nat)
  (Hu : forall n, (0 <= u n)%Q /\ (u n < 1)%Q) : RandomSource nat :=
  {| random := stream_random u;
     randbelow := stream_randbelow k;
     random_unit_interval := Hu;
     randbelow_lt := stream_randbelow_lt k |}.

Lemma half_in_unit_interval (n : nat) : (0 <= 1 # 2)%Q /\ (1 # 2 < 1)%Q.
Proof. split; [discriminate | reflexivity]. Qed.

Lemma zero_in_unit_interval (n : nat) : (0 <= 0)%Q /\ (0 < 1)%Q.
Proof. split; [discriminate | reflexivity]. Qed.

(** Every draw is 1/2, the picks go round [0, 1, 2, ...]. *)
Definition half_source : RandomSource nat :=
  stream_source (fun _ => 1 # 2)%Q (fun n => n) half_in_unit_interval.

(** Every draw is 0, every pick is the first choice. *)
Definition zero_source : RandomSource nat :=
  stream_source (fun _ => 0)%Q (fun _ => 0) zero_in_unit_interval.

(** ** The operations as the specification words them *)

(** The all-pairs distances of a population: every member against every
    later one, so each unordered pair of distinct members once. *)
Fixpoint pair_distances (pop : population) : list nat :=
  match pop with
  | [] => []
  | a :: rest => map (hamming a) rest ++ pair_distances rest
  end.

Definition pair_sum (pop : population) : nat := list_sum (pair_distances pop).

(** [C(n,2)] *)
Definition choose2 (n : nat) : nat := n * (n - 1) / 2.

(** All sequences of a population have length [L]. *)
Definition uniform_length (L : nat) (pop : population) : Prop :=
  Forall (fun s => String.length s = L) pop.

Section Specification.

Context {R : Type} {RS : RandomSource R}.

(** The replacement symbol of a mutated site: the choice the random source
    makes among C, T and G. *)
Definition pick_nucleotide (r : R) : ascii * R :=
  let (i, r') := randbelow 3 r in
  (match i with 0 => "C" | 1 => "T" | _ => "G" end%char, r').

(** The Mutator, site by site in input order: draw [u]; when
    [u <= mutationRate] the site is replaced by a picked symbol, otherwise it
    is copied. *)
Fixpoint mutate_sites (mutationRate : Q) (s : string) (r : R) : string * R :=
  match s with
  | EmptyString => (EmptyString, r)
  | String c s' =>
      let (u, r1) := random r in
      if Qle_bool u mutationRate then
        let (c', r2) := pick_nucleotide r1 in
        let (rest, r3) := mutate_sites mutationRate s' r2 in
        (String c' rest, r3)
      else
        let (rest, r3) := mutate_sites mutationRate s' r1 in
        (String c rest, r3)
  end.

(** The state of the random source when [mutate] reaches site [i] of [s]. *)
Definition source_at_site (mutationRate : Q) (s : string) (r : R) (i : nat) : R :=
  snd (mutate_sites mutationRate (substring 0 i s) r).

(** The Reproducer: the Mutator on every sequence, in order. *)
Fixpoint reproduce_all (mutationRate : Q) (pop : population) (r : R)
  : population * R :=
  match pop with
  | [] => ([], r)
  | s :: pop' =>
      let (s', r1) := mutate_sites mutationRate s r in
      let (pop'', r2) := reproduce_all mutationRate pop' r1 in
      (s' :: pop'', r2)
  end.

(** ** Loop bodies at a position whose content is known *)

(** The loop body of [mutate] at a position that holds [c]. *)
Definition mutate_char (mutationRate : Q) (c : ascii) (st : string * R)
  : result (string * R) :=
  let (acc, r) := st in
  let (u, r1) := random r in
  if Qle_bool u mutationRate then
    let (c', r2) := pick_nucleotide r1 in Ok (append_char acc c', r2)
  else Ok (append_char acc c, r1).

(** The loop body of [reproduce] at an index that holds [parent]. *)
Definition reproduce_parent (mutationRate : Q) (parent : string)
  (st : population * R) : result (population * R) :=
  let (new_generation, r) := st in
  '(child, r) <- mutate mutationRate parent r ;;
  Ok (new_generation ++ [child], r).

End Specification.

(** ** Loops over the elements of a list or a string *)

(** A loop over the indices of a list that reads the list at its index is a
    loop over the elements. *)
Fixpoint for_elements {A St : Type} (k : nat) (l : list A)
  (f : nat -> A -> St -> result St) (s : St) : result St :=
  match l with
  | [] => Ok s
  | x :: l' => s' <- f k x s ;; for_elements (S k) l' f s'
  end.

(** The loop of [mutate] and its like, over the characters of a suffix. *)
Fixpoint for_chars {St : Type} (k : nat) (s : string)
  (f : nat -> ascii -> St -> result St) (st : St) : result St :=
  match s with
  | EmptyString => Ok st
  | String c s' => st' <- f k c st ;; for_chars (S k) s' f st'
  end.

(** ** Auxiliary definitions *)

(** [ceil(n / 2)] *)
Definition ceil_half (n : nat) : nat := (n + 1) / 2.

(** [floor(n / 2)] *)
Definition floor_half (n : nat) : nat := n / 2.

(** The loop body of [split_populations] at an index that holds [x]. *)
Definition split_element (n : nat) (i : nat) (x : string)
  (st : population * population) : result (population * population) :=
  let (population1, population2) := st in
  if Nat.ltb i (ceil_half n)
  then Ok (population1 ++ [x], population2)
  else Ok (population1, population2 ++ [x]).

(** The all-reference sequence of length [n]. *)
Fixpoint all_A (n : nat) : string :=
  match n with
  | 0 => EmptyString
  | S n' => String "A" (all_A n')
  end.

(** ** The states of a run and what holds in them *)

Section ControllerStates.

Context {R : Type} {RS : RandomSource R}.

Variables (N L : nat) (mutation_rate : Q) (g G : nat) (flag : bool).

(** The states of the loop after the split, when the run reaches it. *)
Definition post_split_states (r : R) : list (locals R) :=
  match (st <- for_each (range 0 g) (pre_split_body N L mutation_rate flag)
                 (initial_locals N L r) ;;
         split_step N st) with
  | Ok st => loop_states (range g G) (post_split_body N L mutation_rate flag) st
  | Raise _ => []
  end.

(** The states a run of [main] goes through: the locals before each
    iteration of its loops and when each loop ends. *)
Definition run_states (r : R) : list (locals R) :=
  if Nat.ltb g G then
    loop_states (range 0 g) (pre_split_body N L mutation_rate flag)
      (initial_locals N L r)
    ++ post_split_states r
  else
    loop_states (range 0 G) (no_split_body N L mutation_rate)
      (initial_locals N L r).

(** Every population held in the locals has sequences of length [L]. *)
Definition populations_uniform (st : locals R) : Prop :=
  uniform_length L (new_generation_sequence st)
  /\ uniform_length L (population1 st)
  /\ uniform_length L (population2 st).

(** What [genetic_distance] returns on a population under divisor [D]. *)
Definition average_under (D : Q) (pop : population) : Q :=
  (Qnat (pair_sum pop) / D / Qnat L)%Q.

(** After [j] iterations of a loop on the single population. *)
Definition single_inv (j : nat) (st : locals R) : Prop :=
  uniform_length L (new_generation_sequence st)
  /\ List.length (new_generation_sequence st) = N
  /\ population1 st = [] /\ population2 st = []
  /\ generations st = seq 1 j
  /\ generation_number st = S j
  /\ List.length (avg_genetic_distances st) = j.

(** After [j] iterations of the loop on the two populations [p1], [p2],
    entered with the lists [gens0] and [avg0]. *)
Definition split_inv (p1 p2 : population) (gens0 : list nat) (avg0 : list Q)
  (j : nat) (st : locals R) : Prop :=
  population1 st = p1 /\ population2 st = p2
  /\ uniform_length L (new_generation_sequence st)
  /\ generations st = gens0 ++ flat_map (fun t => [t; t]) (seq (S g) j)
  /\ generation_number st = S g + j
  /\ avg_genetic_distances st
     = avg0 ++ List.concat (repeat [average_under (half_N N) p1;
                               average_under (half_N N) p2] j).

End ControllerStates.

(** ** Loops *)

Lemma for_each_app {St : Type} (l1 l2 : list nat) (body : nat -> St -> result St)
  (s : St) :
  for_each (l1 ++ l2) body s = (s' <- for_each l1 body s ;; for_each l2 body s').
Proof.
  revert s. induction l1 as [|i l1 IH]; intros s; cbn [for_each app bind].
  - reflexivity.
  - destruct (body i s) as [s'|e]; cbn [bind]; [apply IH | reflexivity].
Qed.


Lemma range_0 (n : nat) : range 0 n = seq 0 n.
Proof. unfold range. now rewrite Nat.sub_0_r. Qed.


Lemma for_each_over_suffix {A St : Type} (l2 l1 : list A)
  (body : nat -> St -> result St) (f : nat -> A -> St -> result St) :
  (forall i x s, nth_error (l1 ++ l2) i = Some x -> List.length l1 <= i ->
                 body i s = f i x s) ->
  forall s, for_each (seq (List.length l1) (List.length l2)) body s
            = for_elements (List.length l1) l2 f s.
Proof.
  revert l1. induction l2 as [|x l2 IH]; intros l1 Hbody s.
  - reflexivity.
  - cbn [List.length seq for_each for_elements].
    rewrite (Hbody (List.length l1) x s).
    + destruct (f (List.length l1) x s) as [s'|e]; cbn [bind]; [|reflexivity].
      specialize (IH (l1 ++ [x])).
      rewrite length_app in IH. cbn [List.length] in IH.
      rewrite Nat.add_1_r in IH. apply IH.
      intros i y t Hy Hi. rewrite <- app_assoc in Hy. apply Hbody; [exact Hy | lia].
    + rewrite nth_error_app2 by lia. now rewrite Nat.sub_diag.
    + lia.
Qed.

Lemma for_each_over_list {A St : Type} (l : list A)
  (body : nat -> St -> result St) (f : nat -> A -> St -> result St) :
  (forall i x s, nth_error l i = Some x -> body i s = f i x s) ->
  forall s, for_each (range 0 (List.length l)) body s = for_elements 0 l f s.
Proof.
  intros Hbody s. rewrite range_0.
  apply (for_each_over_suffix l [] body f).
  intros i x t Hx _. apply Hbody. exact Hx.
Qed.

(** ** Strings *)

Lemma string_app_assoc (s1 s2 s3 : string) :
  ((s1 ++ s2) ++ s3 = s1 ++ (s2 ++ s3))%string.
Proof. induction s1 as [|c s1 IH]; cbn; [reflexivity | now rewrite IH]. Qed.

Lemma string_app_empty_r (s : string) : (s ++ "")%string = s.
Proof. induction s as [|c s IH]; cbn; [reflexivity | now rewrite IH]. Qed.

Lemma string_length_app (s1 s2 : string) :
  String.length (s1 ++ s2)%string = String.length s1 + String.length s2.
Proof. induction s1 as [|c s1 IH]; cbn; [reflexivity | now rewrite IH]. Qed.

Lemma get_app_length (s1 : string) (c : ascii) (s2 : string) :
  String.get (String.length s1) (s1 ++ String c s2)%string = Some c.
Proof. induction s1 as [|d s1 IH]; cbn; [reflexivity | exact IH]. Qed.

Lemma get_lt (s : string) (i : nat) :
  i < String.length s -> exists c, String.get i s = Some c.
Proof.
  revert i. induction s as [|d s IH]; intros i Hi; cbn in Hi; [lia|].
  destruct i as [|i]; cbn; [now exists d | apply IH; lia].
Qed.

Lemma get_ge (s : string) (i : nat) :
  String.length s <= i -> String.get i s = None.
Proof.
  revert i. induction s as [|d s IH]; intros i Hi; cbn in Hi.
  - now destruct i.
  - destruct i as [|i]; [lia|]. cbn. apply IH. lia.
Qed.


Lemma for_each_over_string_suffix {St : Type} (s2 s1 : string)
  (body : nat -> St -> result St) (f : nat -> ascii -> St -> result St) :
  (forall i c st, String.get i (s1 ++ s2)%string = Some c -> String.length s1 <= i ->
                  body i st = f i c st) ->
  forall st, for_each (seq (String.length s1) (String.length s2)) body st
             = for_chars (String.length s1) s2 f st.
Proof.
  revert s1. induction s2 as [|c s2 IH]; intros s1 Hbody st.
  - reflexivity.
  - cbn [String.length seq for_each for_chars].
    rewrite (Hbody (String.length s1) c st (get_app_length s1 c s2) (le_n _)).
    destruct (f (String.length s1) c st) as [st'|e]; cbn [bind]; [|reflexivity].
    specialize (IH (s1 ++ String c "")%string).
    rewrite string_length_app in IH. cbn [String.length] in IH.
    rewrite Nat.add_1_r in IH. apply IH.
    intros i d t Hd Hi. rewrite string_app_assoc in Hd. apply Hbody; [exact Hd | lia].
Qed.

Lemma for_each_over_string {St : Type} (s : string)
  (body : nat -> St -> result St) (f : nat -> ascii -> St -> result St) :
  (forall i c st, String.get i s = Some c -> body i st = f i c st) ->
  forall st, for_each (range 0 (String.length s)) body st = for_chars 0 s f st.
Proof.
  intros Hbody st. rewrite range_0.
  apply (for_each_over_string_suffix s "" body f).
  intros i c t Hc _. apply Hbody. exact Hc.
Qed.

Lemma get_app_lt (s t : string) (i : nat) :
  i < String.length s -> String.get i (s ++ t)%string = String.get i s.
Proof.
  revert i. induction s as [|c s IH]; intros i Hi; cbn in Hi; [lia|].
  destruct i as [|i]; cbn; [reflexivity | apply IH; lia].
Qed.

(** ** The Distance Calculator: [compare_sequences] *)

Lemma compare_loop_ok (a b : string) (idx : list nat) :
  (forall i, In i idx -> i < String.length a /\ i < String.length b) ->
  forall acc,
    for_each idx
      (fun index num_differences =>
         c1 <- getitem a index ;;
         c2 <- getitem b index ;;
         if negb (Ascii.eqb c1 c2)
         then Ok (num_differences + 1)
         else Ok num_differences)
      acc
    = Ok (acc + List.length (filter (differs_at a b) idx)).
Proof.
  induction idx as [|i idx IH]; intros Hidx acc; cbn [for_each filter List.length].
  - now rewrite Nat.add_0_r.
  - destruct (Hidx i (or_introl eq_refl)) as [Ha Hb].
    destruct (get_lt a i Ha) as [x Hx]. destruct (get_lt b i Hb) as [y Hy].
    assert (Hd : differs_at a b i = negb (Ascii.eqb x y))
      by (unfold differs_at; now rewrite Hx, Hy).
    unfold getitem. rewrite Hx, Hy, Hd. cbn [bind].
    assert (Hrest : forall j, In j idx -> j < String.length a /\ j < String.length b)
      by (intros j Hj; apply Hidx; now right).
    destruct (Ascii.eqb x y); cbn [negb bind List.length];
      rewrite (IH Hrest); apply f_equal; lia.
Qed.

Lemma compare_sequences_ok (a b : string) :
  String.length a <= String.length b ->
  compare_sequences a b = Ok (hamming a b).
Proof.
  intros Hlen. unfold compare_sequences, hamming, differing_positions.
  rewrite range_0, compare_loop_ok; [reflexivity|].
  intros i Hi. apply in_seq in Hi. lia.
Qed.

Lemma compare_sequences_index_error (a b : string) :
  String.length b < String.length a ->
  compare_sequences a b = Raise IndexError.
Proof.
  intros Hlen. unfold compare_sequences. rewrite range_0.
  replace (String.length a)
    with (String.length b + S (String.length a - S (String.length b))) by lia.
  rewrite seq_app, for_each_app, compare_loop_ok.
  - cbn [bind Nat.add seq for_each].
    destruct (get_lt a (String.length b)) as [x Hx]; [lia|].
    unfold getitem. rewrite Hx, (get_ge b (String.length b) (le_n _)).
    reflexivity.
  - intros i Hi. apply in_seq in Hi. lia.
Qed.

Lemma differs_at_app (a b t : string) (i : nat) :
  i < String.length b -> differs_at a (b ++ t) i = differs_at a b i.
Proof. intros Hi. unfold differs_at. now rewrite get_app_lt. Qed.

Lemma hamming_app_r (a b t : string) :
  String.length a <= String.length b -> hamming a (b ++ t) = hamming a b.
Proof.
  intros Hlen. unfold hamming, differing_positions. f_equal.
  apply filter_ext_in. intros i Hi. apply in_seq in Hi.
  apply differs_at_app. lia.
Qed.

(** C10. For [len(a) <= len(b)], [compare_sequences(a, b)] returns, without
    an exception, the number of positions [i < len(a)] at which [a] and [b]
    differ; what [b] holds beyond [len(a)] is ignored. For [len(a) > len(b)]
    the access [sequence2[index]] raises [IndexError]. So the function is
    not symmetric on unequal lengths. *)
Theorem compare_sequences_unequal_lengths (a b : string) :
  (String.length a <= String.length b ->
     compare_sequences a b = Ok (hamming a b)
     /\ forall t : string, compare_sequences a (b ++ t) = compare_sequences a b)
  /\ (String.length b < String.length a ->
        compare_sequences a b = Raise IndexError)
  /\ (String.length a < String.length b ->
        compare_sequences a b <> compare_sequences b a).
Proof.
  split; [|split].
  - intros Hlen. split; [now apply compare_sequences_ok|].
    intros t. rewrite !compare_sequences_ok.
    + now rewrite hamming_app_r.
    + exact Hlen.
    + rewrite string_length_app. lia.
  - apply compare_sequences_index_error.
  - intros Hlen.
    rewrite (compare_sequences_ok a b) by lia.
    rewrite (compare_sequences_index_error b a Hlen). discriminate.
Qed.

Lemma compare_sequences_unequal_lengths_witness :
  compare_sequences "AG" "ACT" = Ok 1
  /\ compare_sequences "ACT" "AG" = Raise IndexError
  /\ compare_sequences "AG" "ACT" <> compare_sequences "ACT" "AG".
Proof.
  destruct (compare_sequences_unequal_lengths "AG" "ACT") as [H1 [_ H3]].
  destruct (compare_sequences_unequal_lengths "ACT" "AG") as [_ [H2 _]].
  split; [|split].
  - apply H1. cbn. lia.
  - apply H2. cbn. lia.
  - apply H3. cbn. lia.
Defined.

(** ** The Mutator and the Reproducer *)

Lemma Qle_bool_false_lt (x y : Q) : Qle_bool x y = false -> Qlt_bool y x = true.
Proof.
  unfold Qle_bool, Qlt_bool. intros H.
  apply Z.leb_gt in H. now apply Z.ltb_lt.
Qed.

Lemma Qle_bool_false_iff (x y : Q) : Qle_bool x y = false <-> (y < x)%Q.
Proof.
  unfold Qle_bool, Qlt. rewrite Z.leb_gt. reflexivity.
Qed.

Section MutatorFacts.

Context {R : Type} {RS : RandomSource R}.

Lemma pick_nucleotide_in (r : R) : In (fst (pick_nucleotide r)) nucleotide_choices.
Proof.
  unfold pick_nucleotide, nucleotide_choices.
  destruct (randbelow 3 r) as [i r']. cbn [fst].
  destruct i as [|[|i]]; cbn; auto.
Qed.

Lemma choice_nucleotide (r : R) :
  choice nucleotide_choices r = Ok (pick_nucleotide r).
Proof.
  unfold choice, pick_nucleotide. cbn [nucleotide_choices List.length].
  pose proof (randbelow_lt 3 r) as Hlt.
  destruct (randbelow 3 r) as [i r']. cbn [fst] in Hlt.
  destruct i as [|[|[|i]]]; try reflexivity. lia.
Qed.

Lemma mutate_site_char (mutationRate : Q) (s : string) (i : nat) (c : ascii)
  (st : string * R) :
  String.get i s = Some c ->
  mutate_site mutationRate s i st = mutate_char mutationRate c st.
Proof.
  intros Hc. unfold mutate_site, mutate_char. destruct st as [acc r].
  destruct (random r) as [u r1].
  destruct (Qle_bool u mutationRate) eqn:Hu.
  - rewrite choice_nucleotide. cbn [bind].
    now destruct (pick_nucleotide r1).
  - rewrite (Qle_bool_false_lt _ _ Hu). unfold getitem. now rewrite Hc.
Qed.

Lemma for_chars_mutate (mutationRate : Q) (s : string) :
  forall (k : nat) (acc : string) (r : R),
    for_chars k s (fun _ => mutate_char mutationRate) (acc, r)
    = Ok ((acc ++ fst (mutate_sites mutationRate s r))%string,
          snd (mutate_sites mutationRate s r)).
Proof.
  induction s as [|c s IH]; intros k acc r; cbn [for_chars mutate_sites].
  - cbn [fst snd]. now rewrite string_app_empty_r.
  - unfold mutate_char at 1. destruct (random r) as [u r1].
    destruct (Qle_bool u mutationRate).
    + destruct (pick_nucleotide r1) as [c' r2]. cbn [bind]. rewrite IH.
      destruct (mutate_sites mutationRate s r2) as [rest r3]. cbn [fst snd].
      unfold append_char. now rewrite string_app_assoc.
    + cbn [bind]. rewrite IH.
      destruct (mutate_sites mutationRate s r1) as [rest r3]. cbn [fst snd].
      unfold append_char. now rewrite string_app_assoc.
Qed.

(** [mutate] never raises and computes [mutate_sites]. *)
Lemma mutate_refines (mutationRate : Q) (s : string) (r : R) :
  mutate mutationRate s r = Ok (mutate_sites mutationRate s r).
Proof.
  unfold mutate.
  rewrite (for_each_over_string s _ (fun _ => mutate_char mutationRate)).
  - rewrite for_chars_mutate. cbn [append].
    now destruct (mutate_sites mutationRate s r).
  - intros i c st Hc. now apply mutate_site_char.
Qed.

Lemma mutate_sites_length (mutationRate : Q) (s : string) :
  forall r, String.length (fst (mutate_sites mutationRate s r)) = String.length s.
Proof.
  induction s as [|c s IH]; intros r; cbn [mutate_sites]; [reflexivity|].
  destruct (random r) as [u r1]. destruct (Qle_bool u mutationRate).
  - destruct (pick_nucleotide r1) as [c' r2]. specialize (IH r2).
    destruct (mutate_sites mutationRate s r2). cbn in *. now rewrite IH.
  - specialize (IH r1).
    destruct (mutate_sites mutationRate s r1). cbn in *. now rewrite IH.
Qed.

Lemma substring_0_0 (s : string) : substring 0 0 s = EmptyString.
Proof. now destruct s. Qed.

Lemma source_at_site_0 (mutationRate : Q) (s : string) (r : R) :
  source_at_site mutationRate s r 0 = r.
Proof. unfold source_at_site. now destruct s. Qed.

(** What [mutate_sites] does at position [i]: the symbol it writes and the
    state in which it reaches the next position. *)
Lemma mutate_sites_site (mutationRate : Q) (s : string) :
  forall (i : nat) (r : R) (c : ascii),
    String.get i s = Some c ->
    let ri := source_at_site mutationRate s r i in
    let u := fst (random ri) in
    let r1 := snd (random ri) in
    if Qle_bool u mutationRate then
      String.get i (fst (mutate_sites mutationRate s r))
      = Some (fst (pick_nucleotide r1))
      /\ source_at_site mutationRate s r (S i) = snd (pick_nucleotide r1)
    else
      String.get i (fst (mutate_sites mutationRate s r)) = Some c
      /\ source_at_site mutationRate s r (S i) = r1.
Proof.
  unfold source_at_site.
  induction s as [|d s IH]; intros i r c Hc; [discriminate|].
  destruct i as [|i].
  - cbn in Hc. injection Hc as ->.
    cbn [substring]. rewrite !substring_0_0. cbn [mutate_sites snd fst].
    destruct (random r) as [u r1]. cbn [fst snd].
    destruct (Qle_bool u mutationRate).
    + destruct (pick_nucleotide r1) as [c' r2]. cbn [fst snd].
      destruct (mutate_sites mutationRate s r2). cbn. auto.
    + destruct (mutate_sites mutationRate s r1). cbn. auto.
  - cbn in Hc. specialize (IH i). cbn [substring mutate_sites].
    destruct (random r) as [u r1].
    destruct (Qle_bool u mutationRate).
    + destruct (pick_nucleotide r1) as [c' r2].
      specialize (IH r2 c Hc).
      destruct (mutate_sites mutationRate (substring 0 i s) r2) as [p1 q1].
      destruct (mutate_sites mutationRate s r2) as [p2 q2].
      destruct (mutate_sites mutationRate (substring 0 (S i) s) r2) as [p3 q3].
      cbn [fst snd get] in *. exact IH.
    + specialize (IH r1 c Hc).
      destruct (mutate_sites mutationRate (substring 0 i s) r1) as [p1 q1].
      destruct (mutate_sites mutationRate s r1) as [p2 q2].
      destruct (mutate_sites mutationRate (substring 0 (S i) s) r1) as [p3 q3].
      cbn [fst snd get] in *. exact IH.
Qed.

End MutatorFacts.

Section ReproducerFacts.

Context {R : Type} {RS : RandomSource R}.

Lemma for_elements_reproduce (mutationRate : Q) (pop : population) :
  forall (k : nat) (acc : population) (r : R),
    for_elements k pop (fun _ => reproduce_parent mutationRate) (acc, r)
    = Ok (acc ++ fst (reproduce_all mutationRate pop r),
          snd (reproduce_all mutationRate pop r)).
Proof.
  induction pop as [|s pop IH]; intros k acc r; cbn [for_elements reproduce_all].
  - cbn [fst snd]. now rewrite app_nil_r.
  - unfold reproduce_parent at 1. rewrite mutate_refines.
    destruct (mutate_sites mutationRate s r) as [s' r1]. cbn [bind]. rewrite IH.
    destruct (reproduce_all mutationRate pop r1) as [pop' r2]. cbn [fst snd].
    now rewrite <- app_assoc.
Qed.

(** [reproduce] never raises and computes [reproduce_all]. *)
Lemma reproduce_refines (mutationRate : Q) (pop : population) (r : R) :
  reproduce mutationRate pop r = Ok (reproduce_all mutationRate pop r).
Proof.
  unfold reproduce.
  rewrite (for_each_over_list pop _ (fun _ => reproduce_parent mutationRate)).
  - rewrite for_elements_reproduce. cbn [app].
    now destruct (reproduce_all mutationRate pop r).
  - intros i x st Hx. unfold reproduce_one, reproduce_parent, getitem_list.
    destruct st as [acc r0]. now rewrite Hx.
Qed.

(** Each output sequence is the mutation of the parent at the same index. *)
Lemma reproduce_all_children (mutationRate : Q) (pop : population) :
  forall r,
    Forall2 (fun parent child =>
               exists r0, child = fst (mutate_sites mutationRate parent r0))
      pop (fst (reproduce_all mutationRate pop r)).
Proof.
  induction pop as [|s pop IH]; intros r; cbn [reproduce_all].
  - constructor.
  - destruct (mutate_sites mutationRate s r) as [s' r1] eqn:Hs.
    specialize (IH r1).
    destruct (reproduce_all mutationRate pop r1) as [pop' r2]. cbn [fst] in *.
    constructor; [|exact IH].
    exists r. now rewrite Hs.
Qed.

Lemma reproduce_all_uniform (mutationRate : Q) (L : nat) (pop : population) (r : R) :
  uniform_length L pop ->
  uniform_length L (fst (reproduce_all mutationRate pop r)).
Proof.
  intros Hu. pose proof (reproduce_all_children mutationRate pop r) as Hc.
  unfold uniform_length in *.
  induction Hc as [|parent child pop' out' [r0 ->] _ IH]; [constructor|].
  inversion Hu; subst. constructor; [|now apply IH].
  apply mutate_sites_length.
Qed.

Lemma reproduce_all_length (mutationRate : Q) (pop : population) (r : R) :
  List.length (fst (reproduce_all mutationRate pop r)) = List.length pop.
Proof.
  symmetry. eapply Forall2_length. apply reproduce_all_children.
Qed.

(** Rate 1: every draw is below 1, so every site is replaced. *)
Lemma mutate_sites_rate_one (s : string) :
  forall (r : R) (i : nat) (y : ascii),
    String.get i (fst (mutate_sites 1 s r)) = Some y -> In y nucleotide_choices.
Proof.
  induction s as [|c s IH]; intros r i y; cbn [mutate_sites].
  - destruct i; discriminate.
  - pose proof (random_unit_interval r) as [_ Hlt].
    destruct (random r) as [u r1]. cbn [fst] in Hlt.
    assert (Hu : Qle_bool u 1 = true) by (apply Qle_bool_iff; now apply Qlt_le_weak).
    rewrite Hu. pose proof (pick_nucleotide_in r1) as Hin.
    destruct (pick_nucleotide r1) as [c' r2]. cbn [fst] in Hin.
    specialize (IH r2). destruct (mutate_sites 1 s r2) as [rest r3].
    cbn [fst] in *. destruct i as [|i]; cbn [get].
    + intros [= <-]. exact Hin.
    + apply IH.
Qed.

(** Rate 0 and no draw equal to 0: every site is copied. *)
Lemma mutate_sites_rate_zero (s : string) :
  (forall r0 : R, (0 < fst (random r0))%Q) ->
  forall r, fst (mutate_sites 0 s r) = s.
Proof.
  intros Hpos. induction s as [|c s IH]; intros r; cbn [mutate_sites]; [reflexivity|].
  pose proof (Hpos r) as Hr. destruct (random r) as [u r1]. cbn [fst] in Hr.
  rewrite (proj2 (Qle_bool_false_iff u 0) Hr).
  specialize (IH r1). destruct (mutate_sites 0 s r1) as [rest r3].
  cbn [fst] in *. now rewrite IH.
Qed.

Lemma reproduce_all_rate_zero (pop : population) :
  (forall r0 : R, (0 < fst (random r0))%Q) ->
  forall r, fst (reproduce_all 0 pop r) = pop.
Proof.
  intros Hpos. induction pop as [|s pop IH]; intros r; cbn [reproduce_all]; [reflexivity|].
  pose proof (mutate_sites_rate_zero s Hpos r) as Hs.
  destruct (mutate_sites 0 s r) as [s' r1]. cbn [fst] in Hs. subst s'.
  specialize (IH r1). destruct (reproduce_all 0 pop r1) as [pop' r2].
  cbn [fst] in *. now rewrite IH.
Qed.

(** C3. [mutate] goes through the positions in input order, one draw [u]
    per position from the random source in the state the previous
    positions left. Where [u <= mutation_rate] (equality included) the
    output symbol is what [random.choice] picks in ['C', 'T', 'G'], where
    [u > mutation_rate] it is the input symbol; nothing else enters the
    decision. The output has the length of the input. This holds for
    every rate, in particular for those in [[0,1]]. *)
Theorem mutate_per_site (mutation_rate : Q) (s : string) (r : R) :
  mutate mutation_rate s r = Ok (mutate_sites mutation_rate s r)
  /\ String.length (fst (mutate_sites mutation_rate s r)) = String.length s
  /\ source_at_site mutation_rate s r 0 = r
  /\ forall (i : nat) (c : ascii),
       String.get i s = Some c ->
       let ri := source_at_site mutation_rate s r i in
       let u := fst (random ri) in
       let r1 := snd (random ri) in
       (0 <= u)%Q /\ (u < 1)%Q
       /\ ((u <= mutation_rate)%Q ->
             choice nucleotide_choices r1 = Ok (pick_nucleotide r1)
             /\ In (fst (pick_nucleotide r1)) nucleotide_choices
             /\ String.get i (fst (mutate_sites mutation_rate s r))
                = Some (fst (pick_nucleotide r1))
             /\ source_at_site mutation_rate s r (S i) = snd (pick_nucleotide r1))
       /\ ((mutation_rate < u)%Q ->
             String.get i (fst (mutate_sites mutation_rate s r)) = Some c
             /\ source_at_site mutation_rate s r (S i) = r1).
Proof.
  split; [apply mutate_refines|].
  split; [apply mutate_sites_length|].
  split; [apply source_at_site_0|].
  intros i c Hc ri u r1.
  pose proof (mutate_sites_site mutation_rate s i r c Hc) as Hsite.
  cbn zeta in Hsite. fold ri in Hsite. fold u in Hsite. fold r1 in Hsite.
  destruct (random_unit_interval ri) as [H0 H1]. fold u in H0, H1.
  split; [exact H0|]. split; [exact H1|].
  destruct (Qle_bool u mutation_rate) eqn:Hu.
  - split.
    + intros _. destruct Hsite as [Hget Hnext].
      split; [apply choice_nucleotide|].
      split; [apply pick_nucleotide_in|]. now split.
    + intros Hgt. apply Qle_bool_iff in Hu.
      exfalso. exact (Qlt_not_le _ _ Hgt Hu).
  - split.
    + intros Hle. apply Qle_bool_iff in Hle. congruence.
    + intros _. exact Hsite.
Qed.

(** C5, amended. At rate 1 [reproduce] returns a population of the same
    size in which every sequence has its parent's length and holds only C,
    T or G; so it differs from the parent at every position where the
    parent holds A. Where the parent holds C, T or G the pick may be the
    same symbol. *)
Theorem reproduce_rate_one (pop : population) (r : R) :
  exists (out : population) (r' : R),
    reproduce 1 pop r = Ok (out, r')
    /\ Forall2
         (fun parent child =>
            String.length child = String.length parent
            /\ forall (i : nat) (y : ascii),
                 String.get i child = Some y ->
                 In y nucleotide_choices
                 /\ (String.get i parent = Some "A"%char -> y <> "A"%char))
         pop out.
Proof.
  exists (fst (reproduce_all 1 pop r)), (snd (reproduce_all 1 pop r)).
  split.
  - rewrite reproduce_refines. now destruct (reproduce_all 1 pop r).
  - eapply Forall2_impl; [|apply reproduce_all_children].
    intros parent child [r0 ->]. split; [apply mutate_sites_length|].
    intros i y Hy. pose proof (mutate_sites_rate_one parent r0 i y Hy) as Hin.
    split; [exact Hin|].
    intros _ ->. cbn in Hin. intuition discriminate.
Qed.

(** C6, amended. At rate 0, when no draw of the random source is 0,
    [reproduce] returns a population equal to its input. *)
Theorem reproduce_rate_zero (pop : population) (r : R) :
  (forall r0 : R, (0 < fst (random r0))%Q) ->
  exists r' : R, reproduce 0 pop r = Ok (pop, r').
Proof.
  intros Hpos. exists (snd (reproduce_all 0 pop r)).
  rewrite reproduce_refines.
  pose proof (reproduce_all_rate_zero pop Hpos r) as Hp.
  destruct (reproduce_all 0 pop r) as [out r']. cbn [fst snd] in *. now subst.
Qed.

End ReproducerFacts.

(** ** The Distance Calculator: [genetic_distance] *)

Lemma sum_values_list_sum (distances : list nat) :
  sum_values distances = list_sum distances.
Proof.
  unfold sum_values.
  assert (H : forall acc, fold_left (fun s v => s + v) distances acc
                          = acc + list_sum distances).
  { induction distances as [|d ds IH]; intros acc; simpl.
    - lia.
    - rewrite IH. lia. }
  apply H.
Qed.

Lemma pair_distances_length (pop : population) :
  List.length (pair_distances pop) = choose2 (List.length pop).
Proof.
  unfold choose2. induction pop as [|a rest IH]; [reflexivity|].
  cbn [pair_distances List.length]. rewrite length_app, length_map, IH.
  rewrite Nat.sub_succ, Nat.sub_0_r.
  replace (S (List.length rest) * List.length rest)
    with (List.length rest * 2 + List.length rest * (List.length rest - 1))
    by (destruct (List.length rest); cbn; lia).
  rewrite Nat.div_add_l by discriminate. reflexivity.
Qed.

(** The inner loop of [genetic_distance] at an index that holds [a], over
    the members after it. *)
Lemma for_elements_compare (L : nat) (a : string) (rest : population) :
  String.length a = L -> uniform_length L rest ->
  forall (k : nat) (distances : list nat),
    for_elements k rest
      (fun _ x ds => d <- compare_sequences a x ;; Ok (ds ++ [d])) distances
    = Ok (distances ++ map (hamming a) rest).
Proof.
  intros Ha Hrest. induction Hrest as [|x rest Hx _ IH]; intros k distances;
    cbn [for_elements map].
  - now rewrite app_nil_r.
  - rewrite compare_sequences_ok by lia. cbn [bind]. rewrite IH.
    now rewrite <- app_assoc.
Qed.

Lemma pairwise_distances_from (L : nat) (pop : population) :
  uniform_length L pop ->
  forall (l2 l1 : population) (distances : list nat),
    pop = l1 ++ l2 ->
    for_each (seq (List.length l1) (List.length l2))
      (fun index distances =>
         for_each (range (index + 1) (List.length pop))
           (fun index2 distances =>
              s1 <- getitem_list pop index ;;
              s2 <- getitem_list pop index2 ;;
              d <- compare_sequences s1 s2 ;;
              Ok (distances ++ [d]))
           distances)
      distances
    = Ok (distances ++ pair_distances l2).
Proof.
  intros Hu. induction l2 as [|a l2 IH]; intros l1 distances Hpop.
  - cbn. now rewrite app_nil_r.
  - cbn [List.length seq for_each pair_distances].
    assert (Hu' : uniform_length L (a :: l2)).
    { unfold uniform_length in *. rewrite Hpop in Hu.
      now apply Forall_app in Hu. }
    pose proof (Forall_inv Hu') as Ha. pose proof (Forall_inv_tail Hu') as Hl2.
    assert (Hinner :
      for_each (range (List.length l1 + 1) (List.length pop))
        (fun index2 distances =>
           s1 <- getitem_list pop (List.length l1) ;;
           s2 <- getitem_list pop index2 ;;
           d <- compare_sequences s1 s2 ;;
           Ok (distances ++ [d]))
        distances
      = Ok (distances ++ map (hamming a) l2)).
    { unfold range.
      replace (List.length pop - (List.length l1 + 1)) with (List.length l2)
        by (rewrite Hpop, length_app; cbn [List.length]; lia).
      replace (List.length l1 + 1) with (List.length (l1 ++ [a]))
        by (rewrite length_app; reflexivity).
      rewrite (for_each_over_suffix l2 (l1 ++ [a]) _
                 (fun _ x ds => d <- compare_sequences a x ;; Ok (ds ++ [d]))).
      - now apply (for_elements_compare L).
      - intros i x ds Hx _. unfold getitem_list.
        rewrite <- app_assoc in Hx. cbn [app] in Hx. rewrite <- Hpop in Hx.
        rewrite Hx.
        replace (nth_error pop (List.length l1)) with (Some a); [reflexivity|].
        rewrite Hpop, nth_error_app2, Nat.sub_diag by lia. reflexivity. }
    rewrite Hinner. cbn [bind].
    specialize (IH (l1 ++ [a]) (distances ++ map (hamming a) l2)).
    rewrite length_app, Nat.add_1_r in IH. rewrite IH.
    + now rewrite <- app_assoc.
    + now rewrite <- app_assoc.
Qed.

(** On a population of sequences of one length, the list [distances] is the
    list of all-pairs Hamming counts. *)
Lemma pairwise_distances_ok (L : nat) (pop : population) :
  uniform_length L pop -> pairwise_distances pop = Ok (pair_distances pop).
Proof.
  intros Hu. unfold pairwise_distances. rewrite range_0.
  exact (pairwise_distances_from L pop Hu pop [] [] eq_refl).
Qed.

Lemma truediv_ok (a b : Q) : ~ (b == 0)%Q -> truediv a b = Ok (a / b)%Q.
Proof.
  intros Hb. unfold truediv.
  destruct (Qeq_bool b 0) eqn:E; [|reflexivity].
  apply Qeq_bool_iff in E. contradiction.
Qed.

Lemma Qnat_nonzero (n : nat) : 1 <= n -> ~ (Qnat n == 0)%Q.
Proof.
  intros Hn. unfold Qnat, Qeq. cbn. lia.
Qed.

(** [genetic_distance] on a population of sequences of one length, for any
    nonzero divisors. *)
Lemma genetic_distance_ok (L : nat) (pop : population) (N : Q) (L' : nat) :
  uniform_length L pop -> ~ (N == 0)%Q -> 1 <= L' ->
  genetic_distance pop N L' = Ok (Qnat (pair_sum pop) / N / Qnat L')%Q.
Proof.
  intros Hu HN HL. unfold genetic_distance.
  rewrite (pairwise_distances_ok L pop Hu). cbn [bind].
  rewrite sum_values_list_sum. fold (pair_sum pop).
  rewrite (truediv_ok _ N HN). cbn [bind].
  apply truediv_ok. now apply Qnat_nonzero.
Qed.

(** C2. On a population of [n >= 1] sequences of length [L >= 1],
    [genetic_distance] called with [N = n] compares every unordered pair of
    distinct members once, [C(n,2)] comparisons, and returns their sum
    divided by [N] and then by [L], without an exception; for [n = 1] the
    result is 0. *)
Theorem genetic_distance_average (pop : population) (L : nat) :
  1 <= List.length pop -> 1 <= L -> uniform_length L pop ->
  pairwise_distances pop = Ok (pair_distances pop)
  /\ List.length (pair_distances pop) = choose2 (List.length pop)
  /\ genetic_distance pop (Qnat (List.length pop)) L
     = Ok (Qnat (pair_sum pop) / Qnat (List.length pop) / Qnat L)%Q
  /\ (List.length pop = 1 ->
      pair_distances pop = []
      /\ (Qnat (pair_sum pop) / Qnat (List.length pop) / Qnat L == 0)%Q).
Proof.
  intros Hn HL Hu.
  split; [now apply (pairwise_distances_ok L)|].
  split; [apply pair_distances_length|].
  split; [apply (genetic_distance_ok L); auto using Qnat_nonzero|].
  intros H1. destruct pop as [|a [|b rest]]; cbn in H1; try discriminate.
  split; [reflexivity|].
  unfold pair_sum. cbn [pair_distances map app list_sum].
  unfold Qdiv. now rewrite !Qmult_0_l.
Qed.

(** ** The Population Splitter *)

Lemma ceil_floor_half (n : nat) : ceil_half n + floor_half n = n.
Proof.
  unfold ceil_half, floor_half.
  pose proof (Nat.div_mod_eq n 2) as H1.
  pose proof (Nat.div_mod_eq (n + 1) 2) as H2.
  pose proof (Nat.mod_upper_bound n 2) as H3.
  pose proof (Nat.mod_upper_bound (n + 1) 2) as H4.
  assert (Hm : (n + 1) mod 2 = 1 - n mod 2).
  { rewrite <- Nat.Div0.add_mod_idemp_l.
    destruct (n mod 2) as [|[|k]]; [reflexivity | reflexivity | lia]. }
  lia.
Qed.

Lemma lt_ceil_half (i n : nat) : i < ceil_half n <-> 2 * i < n.
Proof.
  unfold ceil_half.
  pose proof (Nat.div_mod_eq (n + 1) 2) as H2.
  pose proof (Nat.mod_upper_bound (n + 1) 2) as H4.
  lia.
Qed.

(** [index < population_size_N / 2] for an integer [population_size_N] *)
Lemma index_lt_half (i n : nat) :
  Qlt_bool (Qnat i) (Qnat n / 2)%Q = Nat.ltb i (ceil_half n).
Proof.
  unfold Qlt_bool, Qnat, Qdiv, Qmult, Qinv, inject_Z. cbn [Qnum Qden].
  destruct (Nat.ltb_spec i (ceil_half n)) as [H|H].
  - apply Z.ltb_lt. apply lt_ceil_half in H. lia.
  - apply Z.ltb_ge.
    assert (~ 2 * i < n) by (intros H'; apply lt_ceil_half in H'; lia). lia.
Qed.

Lemma for_elements_split (n : nat) (l : population) :
  forall (k : nat) (p1 p2 : population),
    for_elements k l (split_element n) (p1, p2)
    = Ok (p1 ++ firstn (ceil_half n - k) l, p2 ++ skipn (ceil_half n - k) l).
Proof.
  induction l as [|x l IH]; intros k p1 p2; cbn [for_elements].
  - now rewrite firstn_nil, skipn_nil, !app_nil_r.
  - unfold split_element at 1.
    destruct (Nat.ltb_spec k (ceil_half n)) as [H|H]; cbn [bind]; rewrite IH.
    + replace (ceil_half n - k) with (S (ceil_half n - S k)) by lia.
      cbn [firstn skipn]. now rewrite <- app_assoc.
    + replace (ceil_half n - k) with 0 by lia.
      replace (ceil_half n - S k) with 0 by lia.
      cbn [firstn skipn]. now rewrite <- app_assoc, app_nil_r.
Qed.

(** [split_populations] with an integer size hint [n] never raises and cuts
    the list after its first [ceil(n / 2)] members. *)
Lemma split_populations_ok (pop : population) (n : nat) :
  split_populations pop (Qnat n)
  = Ok (firstn (ceil_half n) pop, skipn (ceil_half n) pop).
Proof.
  unfold split_populations.
  rewrite (for_each_over_list pop _ (split_element n)).
  - rewrite for_elements_split. now rewrite Nat.sub_0_r.
  - intros i x [p1 p2] Hx. unfold split_element, getitem_list.
    rewrite index_lt_half, Hx. now destruct (Nat.ltb i (ceil_half n)).
Qed.

(** C4. [split_populations] on a population of size [N], with [N] as its
    second argument, is positional: [population1] is the first
    [ceil(N / 2)] members and [population2] the other [floor(N / 2)], in
    order; so the two concatenated are the population, and the sizes are 5
    and 5 for [N = 10] and 4 and 3 for [N = 7]. The function draws no random
    number. *)
Theorem split_populations_positional (pop : population) :
  exists p1 p2 : population,
    split_populations pop (Qnat (List.length pop)) = Ok (p1, p2)
    /\ p1 = firstn (ceil_half (List.length pop)) pop
    /\ p2 = skipn (ceil_half (List.length pop)) pop
    /\ List.length p1 = ceil_half (List.length pop)
    /\ List.length p2 = floor_half (List.length pop)
    /\ p1 ++ p2 = pop
    /\ (List.length pop = 10 -> List.length p1 = 5 /\ List.length p2 = 5)
    /\ (List.length pop = 7 -> List.length p1 = 4 /\ List.length p2 = 3).
Proof.
  pose proof (ceil_floor_half (List.length pop)) as Hcf.
  assert (H1 : List.length (firstn (ceil_half (List.length pop)) pop)
               = ceil_half (List.length pop))
    by (rewrite length_firstn; lia).
  assert (H2 : List.length (skipn (ceil_half (List.length pop)) pop)
               = floor_half (List.length pop))
    by (rewrite length_skipn; lia).
  eexists _, _. split; [apply split_populations_ok|].
  repeat split; try assumption.
  - apply firstn_skipn.
  - rewrite H1, H. reflexivity.
  - rewrite H2, H. reflexivity.
  - rewrite H1, H. reflexivity.
  - rewrite H2, H. reflexivity.
Qed.

(** ** The initial population *)

Lemma all_A_length (n : nat) : String.length (all_A n) = n.
Proof. induction n as [|n IH]; cbn; [reflexivity | now rewrite IH]. Qed.

Lemma all_A_snoc (n : nat) : append_char (all_A n) "A" = all_A (S n).
Proof.
  unfold append_char. induction n as [|n IH]; cbn; [reflexivity|].
  cbn in IH. now rewrite IH.
Qed.

Lemma fold_left_all_A (idx : list nat) :
  forall n,
    fold_left (fun indiv_sequence (_ : nat) => append_char indiv_sequence "A")
      idx (all_A n)
    = all_A (n + List.length idx).
Proof.
  induction idx as [|i idx IH]; intros n; cbn [fold_left List.length].
  - now rewrite Nat.add_0_r.
  - rewrite all_A_snoc, IH. f_equal. lia.
Qed.

Lemma fold_left_snoc_const {A : Type} (x : A) (idx : list nat) :
  forall acc : list A,
    fold_left (fun l (_ : nat) => l ++ [x]) idx acc
    = acc ++ repeat x (List.length idx).
Proof.
  induction idx as [|i idx IH]; intros acc; cbn [fold_left List.length repeat].
  - now rewrite app_nil_r.
  - rewrite IH, <- app_assoc. reflexivity.
Qed.

(** [initialize_original_sequence(N, L)] is [N] copies of the all-A
    sequence of length [L]. *)
Lemma initialize_original_sequence_ok (N L : nat) :
  initialize_original_sequence N L = repeat (all_A L) N.
Proof.
  unfold initialize_original_sequence.
  pose proof (fold_left_all_A (range 0 L) 0) as HA.
  cbn [all_A Nat.add] in HA. rewrite HA.
  rewrite fold_left_snoc_const. cbn [app].
  unfold range. now rewrite !length_seq, !Nat.sub_0_r.
Qed.

Lemma initialize_original_sequence_uniform (N L : nat) :
  uniform_length L (initialize_original_sequence N L).
Proof.
  rewrite initialize_original_sequence_ok. unfold uniform_length.
  apply Forall_forall. intros s Hs. apply repeat_spec in Hs. subst s.
  apply all_A_length.
Qed.

Lemma initialize_original_sequence_length (N L : nat) :
  List.length (initialize_original_sequence N L) = N.
Proof. rewrite initialize_original_sequence_ok. apply repeat_length. Qed.

(** ** The report *)

Lemma for_elements_rows (gens : list nat) :
  forall (a1 a2 : list Q) (rows : list (nat * Q)),
    List.length a2 = List.length gens ->
    for_elements (List.length a1) gens
      (fun i g rows => d <- getitem_list (a1 ++ a2) i ;; Ok (rows ++ [(g, d)]))
      rows
    = Ok (rows ++ combine gens a2).
Proof.
  induction gens as [|g gens IH]; intros a1 a2 rows Hlen; cbn [for_elements].
  - cbn. now rewrite app_nil_r.
  - destruct a2 as [|d a2]; [discriminate|]. cbn [List.length] in Hlen.
    unfold getitem_list at 1.
    rewrite nth_error_app2, Nat.sub_diag by lia. cbn [nth_error bind].
    specialize (IH (a1 ++ [d]) a2 (rows ++ [(g, d)])).
    rewrite length_app, Nat.add_1_r, <- !app_assoc in IH. cbn [app] in IH.
    rewrite IH by lia. reflexivity.
Qed.

(** [print_output] prints one row per entry of [generations], pairing it
    with the entry of [avg_distance] at the same index. *)
Lemma print_output_ok (avg : list Q) (gens : list nat) :
  List.length avg = List.length gens ->
  print_output avg gens = Ok (combine gens avg).
Proof.
  intros Hlen. unfold print_output.
  rewrite (for_each_over_list gens _
             (fun i g rows => d <- getitem_list avg i ;; Ok (rows ++ [(g, d)]))).
  - exact (for_elements_rows gens [] avg [] Hlen).
  - intros i g rows Hg. unfold getitem_list at 1. now rewrite Hg.
Qed.

(** ** Loop invariants *)

Lemma for_each_invariant {St : Type} (P : nat -> St -> Prop)
  (body : nat -> St -> result St) :
  (forall j i s, P j s -> exists s', body i s = Ok s' /\ P (S j) s') ->
  forall (idx : list nat) (j : nat) (s : St),
    P j s ->
    (exists s', for_each idx body s = Ok s' /\ P (j + List.length idx) s')
    /\ Forall (fun t => exists m, P m t) (loop_states idx body s).
Proof.
  intros Hstep. induction idx as [|i idx IH]; intros j s Hs;
    cbn [for_each loop_states List.length].
  - split.
    + exists s. rewrite Nat.add_0_r. now split.
    + constructor; [now exists j | constructor].
  - destruct (Hstep j i s Hs) as [s1 [Hb H1]]. rewrite Hb. cbn [bind].
    destruct (IH (S j) s1 H1) as [[s' [Hf Hs']] Hall].
    split.
    + exists s'. split; [exact Hf|]. now rewrite Nat.add_succ_r.
    + constructor; [now exists j | exact Hall].
Qed.

(** ** The controller: states, steps and invariants *)

Section ControllerFacts.

Context {R : Type} {RS : RandomSource R}.

Variables (N L : nat) (mutation_rate : Q) (g G : nat) (flag : bool).

Local Abbreviation run_states := (@run_states R RS N L mutation_rate g G flag).
Local Abbreviation post_split_states :=
  (@post_split_states R RS N L mutation_rate g G flag).
Local Abbreviation populations_uniform := (@populations_uniform R L).
Local Abbreviation average_under := (average_under L).
Local Abbreviation single_inv := (@single_inv R N L).
Local Abbreviation split_inv := (@split_inv R N L g).

Hypothesis N_positive : 1 <= N.
Hypothesis L_positive : 1 <= L.

Lemma half_N_nonzero : ~ (half_N N == 0)%Q.
Proof.
  unfold half_N, Qnat, Qdiv, Qmult, Qinv, Qeq, inject_Z. cbn. lia.
Qed.

Lemma print_distance_ok (pop : population) (D : Q) :
  uniform_length L pop -> ~ (D == 0)%Q -> print_distance pop D L = Ok tt.
Proof.
  intros Hu HD. unfold print_distance.
  now rewrite (genetic_distance_ok L pop D L Hu HD L_positive).
Qed.

Lemma pre_split_body_ok (i : nat) (st : locals R) :
  uniform_length L (new_generation_sequence st) ->
  pre_split_body N L mutation_rate flag i st
  = Ok (mkLocals
          (fst (reproduce_all mutation_rate (new_generation_sequence st) (rng st)))
          (population1 st) (population2 st)
          (avg_genetic_distances st
             ++ [average_under (Qnat N) (new_generation_sequence st)])
          (generations st ++ [generation_number st])
          (generation_number st + 1)
          (snd (reproduce_all mutation_rate (new_generation_sequence st) (rng st)))).
Proof.
  intros Hu. unfold pre_split_body.
  rewrite (genetic_distance_ok L _ _ L Hu (Qnat_nonzero N N_positive) L_positive).
  cbn [bind].
  assert (Hp : (if flag
                then print_distance (new_generation_sequence st) (Qnat N) L
                else Ok tt) = Ok tt)
    by (destruct flag; [apply print_distance_ok; auto using Qnat_nonzero | reflexivity]).
  rewrite Hp. cbn [bind]. rewrite reproduce_refines. cbn [bind].
  now destruct (reproduce_all mutation_rate (new_generation_sequence st) (rng st)).
Qed.

Lemma no_split_body_ok (i : nat) (st : locals R) :
  uniform_length L (new_generation_sequence st) ->
  no_split_body N L mutation_rate i st
  = Ok (mkLocals
          (fst (reproduce_all mutation_rate (new_generation_sequence st) (rng st)))
          (population1 st) (population2 st)
          (avg_genetic_distances st
             ++ [average_under (Qnat N) (new_generation_sequence st)])
          (generations st ++ [generation_number st])
          (generation_number st + 1)
          (snd (reproduce_all mutation_rate (new_generation_sequence st) (rng st)))).
Proof.
  intros Hu. unfold no_split_body.
  rewrite (genetic_distance_ok L _ _ L Hu (Qnat_nonzero N N_positive) L_positive).
  cbn [bind].
  rewrite print_distance_ok by auto using Qnat_nonzero.
  cbn [bind]. rewrite reproduce_refines. cbn [bind].
  now destruct (reproduce_all mutation_rate (new_generation_sequence st) (rng st)).
Qed.

(** One iteration after the split: both records are appended, both calls of
    [reproduce] go to [new_generation_sequence], and [population1] and
    [population2] are left as they were. *)
Lemma post_split_body_ok (i : nat) (st : locals R) :
  uniform_length L (population1 st) -> uniform_length L (population2 st) ->
  let r1 := snd (reproduce_all mutation_rate (population1 st) (rng st)) in
  post_split_body N L mutation_rate flag i st
  = Ok (mkLocals
          (fst (reproduce_all mutation_rate (population2 st) r1))
          (population1 st) (population2 st)
          ((avg_genetic_distances st
              ++ [average_under (half_N N) (population1 st)])
             ++ [average_under (half_N N) (population2 st)])
          ((generations st ++ [generation_number st]) ++ [generation_number st])
          (generation_number st + 1)
          (snd (reproduce_all mutation_rate (population2 st) r1))).
Proof.
  intros Hu1 Hu2 r1. unfold post_split_body.
  rewrite (genetic_distance_ok L _ _ L Hu1 half_N_nonzero L_positive).
  cbn [bind].
  assert (Hp1 : (if flag
                 then print_distance (population1 st) (half_N N) L
                 else Ok tt) = Ok tt)
    by (destruct flag; [apply print_distance_ok; auto using half_N_nonzero | reflexivity]).
  rewrite Hp1. cbn [bind]. rewrite reproduce_refines. cbn [bind].
  destruct (reproduce_all mutation_rate (population1 st) (rng st)) as [c1 r1'] eqn:E1.
  cbn [snd] in r1. subst r1.
  rewrite (genetic_distance_ok L _ _ L Hu2 half_N_nonzero L_positive).
  cbn [bind].
  assert (Hp2 : (if flag
                 then print_distance (population2 st) (half_N N) L
                 else Ok tt) = Ok tt)
    by (destruct flag; [apply print_distance_ok; auto using half_N_nonzero | reflexivity]).
  rewrite Hp2. cbn [bind]. rewrite reproduce_refines. cbn [bind].
  now destruct (reproduce_all mutation_rate (population2 st) r1').
Qed.

Lemma initial_locals_inv (r : R) : single_inv 0 (initial_locals N L r).
Proof.
  unfold single_inv, initial_locals. cbn.
  repeat split; auto using initialize_original_sequence_uniform,
    initialize_original_sequence_length.
Qed.

Lemma single_inv_step (body : nat -> locals R -> result (locals R)) :
  (forall i st,
     uniform_length L (new_generation_sequence st) ->
     body i st
     = Ok (mkLocals
             (fst (reproduce_all mutation_rate (new_generation_sequence st) (rng st)))
             (population1 st) (population2 st)
             (avg_genetic_distances st
                ++ [average_under (Qnat N) (new_generation_sequence st)])
             (generations st ++ [generation_number st])
             (generation_number st + 1)
             (snd (reproduce_all mutation_rate (new_generation_sequence st) (rng st))))) ->
  forall j i st, single_inv j st ->
                 exists st', body i st = Ok st' /\ single_inv (S j) st'.
Proof.
  intros Hbody j i st (Hu & Hlen & Hp1 & Hp2 & Hg & Hn & Ha).
  eexists. split; [apply Hbody; exact Hu|].
  unfold single_inv. cbn [population1 population2 new_generation_sequence
    generations generation_number avg_genetic_distances].
  repeat split.
  - now apply reproduce_all_uniform.
  - now rewrite reproduce_all_length.
  - exact Hp1.
  - exact Hp2.
  - rewrite Hg, Hn. rewrite seq_S. reflexivity.
  - lia.
  - rewrite length_app. cbn. lia.
Qed.

Lemma split_inv_step (p1 p2 : population) (gens0 : list nat) (avg0 : list Q) :
  uniform_length L p1 -> uniform_length L p2 ->
  forall j i st,
    split_inv p1 p2 gens0 avg0 j st ->
    exists st', post_split_body N L mutation_rate flag i st = Ok st'
                /\ split_inv p1 p2 gens0 avg0 (S j) st'.
Proof.
  intros Hu1 Hu2 j i st (Hp1 & Hp2 & Hu & Hg & Hn & Ha).
  eexists. split.
  - apply post_split_body_ok; [now rewrite Hp1 | now rewrite Hp2].
  - unfold split_inv. cbn [population1 population2 new_generation_sequence
      generations generation_number avg_genetic_distances].
    repeat split.
    + exact Hp1.
    + exact Hp2.
    + apply reproduce_all_uniform. now rewrite Hp2.
    + rewrite Hg, Hn, seq_S, flat_map_app. cbn [flat_map app].
      rewrite <- !app_assoc. reflexivity.
    + lia.
    + rewrite Ha, Hp1, Hp2.
      replace (S j) with (j + 1) by lia.
      rewrite repeat_app, concat_app. cbn [repeat List.concat app].
      rewrite <- !app_assoc. reflexivity.
Qed.

Lemma single_loop_ok (body : nat -> locals R -> result (locals R)) (k : nat) (r : R) :
  (forall j i st, single_inv j st ->
                  exists st', body i st = Ok st' /\ single_inv (S j) st') ->
  (exists st, for_each (range 0 k) body (initial_locals N L r) = Ok st
              /\ single_inv k st)
  /\ Forall (fun t => exists m, single_inv m t)
       (loop_states (range 0 k) body (initial_locals N L r)).
Proof.
  intros Hstep.
  pose proof (for_each_invariant single_inv body Hstep (range 0 k) 0
                (initial_locals N L r) (initial_locals_inv r)) as H.
  rewrite range_0, length_seq in *. exact H.
Qed.

Lemma pre_split_loop_ok (k : nat) (r : R) :
  (exists st, for_each (range 0 k) (pre_split_body N L mutation_rate flag)
                (initial_locals N L r) = Ok st
              /\ single_inv k st)
  /\ Forall (fun t => exists m, single_inv m t)
       (loop_states (range 0 k) (pre_split_body N L mutation_rate flag)
          (initial_locals N L r)).
Proof.
  apply single_loop_ok. apply single_inv_step. apply pre_split_body_ok.
Qed.

Lemma no_split_loop_ok (k : nat) (r : R) :
  (exists st, for_each (range 0 k) (no_split_body N L mutation_rate)
                (initial_locals N L r) = Ok st
              /\ single_inv k st)
  /\ Forall (fun t => exists m, single_inv m t)
       (loop_states (range 0 k) (no_split_body N L mutation_rate)
          (initial_locals N L r)).
Proof.
  apply single_loop_ok. apply single_inv_step. apply no_split_body_ok.
Qed.

Lemma split_step_ok (st : locals R) :
  split_step N st
  = Ok (mkLocals (new_generation_sequence st)
          (firstn (ceil_half N) (new_generation_sequence st))
          (skipn (ceil_half N) (new_generation_sequence st))
          (avg_genetic_distances st) (generations st) (generation_number st)
          (rng st)).
Proof. unfold split_step. now rewrite split_populations_ok. Qed.

Lemma uniform_firstn (n : nat) (pop : population) :
  uniform_length L pop -> uniform_length L (firstn n pop).
Proof.
  unfold uniform_length. intros H.
  rewrite <- (firstn_skipn n pop) in H. now apply Forall_app in H.
Qed.

Lemma uniform_skipn (n : nat) (pop : population) :
  uniform_length L pop -> uniform_length L (skipn n pop).
Proof.
  unfold uniform_length. intros H.
  rewrite <- (firstn_skipn n pop) in H. now apply Forall_app in H.
Qed.

(** The run up to the end of the loop after the split. *)
Lemma post_split_loop_ok (r : R) :
  g <= G ->
  exists pre st : locals R,
    for_each (range 0 g) (pre_split_body N L mutation_rate flag)
      (initial_locals N L r) = Ok pre
    /\ single_inv g pre
    /\ (st' <- split_step N pre ;;
        for_each (range g G) (post_split_body N L mutation_rate flag) st') = Ok st
    /\ split_inv (firstn (ceil_half N) (new_generation_sequence pre))
         (skipn (ceil_half N) (new_generation_sequence pre))
         (generations pre) (avg_genetic_distances pre) (G - g) st
    /\ Forall (fun t => exists m,
                 split_inv (firstn (ceil_half N) (new_generation_sequence pre))
                   (skipn (ceil_half N) (new_generation_sequence pre))
                   (generations pre) (avg_genetic_distances pre) m t)
         (post_split_states r).
Proof.
  intros HgG.
  destruct (pre_split_loop_ok g r) as [[pre [Hpre Hinv]] _].
  pose proof Hinv as (Hu & Hlen & Hp1 & Hp2 & Hg & Hn & Ha).
  set (p1 := firstn (ceil_half N) (new_generation_sequence pre)).
  set (p2 := skipn (ceil_half N) (new_generation_sequence pre)).
  assert (Hu1 : uniform_length L p1) by now apply uniform_firstn.
  assert (Hu2 : uniform_length L p2) by now apply uniform_skipn.
  assert (H0 : split_inv p1 p2 (generations pre) (avg_genetic_distances pre) 0
                 (mkLocals (new_generation_sequence pre) p1 p2
                    (avg_genetic_distances pre) (generations pre)
                    (generation_number pre) (rng pre))).
  { unfold split_inv. cbn. rewrite !app_nil_r. repeat split; auto. lia. }
  pose proof (for_each_invariant _ _
                (split_inv_step p1 p2 (generations pre) (avg_genetic_distances pre)
                   Hu1 Hu2)
                (range g G) 0 _ H0) as [[st [Hst Hsinv]] Hall].
  exists pre, st. split; [exact Hpre|]. split; [exact Hinv|].
  split; [|split].
  - rewrite split_step_ok. cbn [bind]. exact Hst.
  - unfold range in Hsinv. rewrite length_seq in Hsinv. exact Hsinv.
  - unfold post_split_states. rewrite Hpre. cbn [bind].
    rewrite split_step_ok. exact Hall.
Qed.

Lemma length_double (l : list nat) :
  List.length (flat_map (fun t => [t; t]) l) = 2 * List.length l.
Proof. induction l as [|x l IH]; cbn in *; [reflexivity | rewrite IH; lia]. Qed.

Lemma length_concat_pairs {A : Type} (a b : A) (j : nat) :
  List.length (List.concat (repeat [a; b] j)) = 2 * j.
Proof. induction j as [|j IH]; cbn in *; [reflexivity | rewrite IH; lia]. Qed.

Lemma split_inv_lengths (p1 p2 : population) (gens0 : list nat) (avg0 : list Q)
  (j : nat) (st : locals R) :
  List.length avg0 = List.length gens0 ->
  split_inv p1 p2 gens0 avg0 j st ->
  List.length (avg_genetic_distances st) = List.length (generations st).
Proof.
  intros H0 (_ & _ & _ & Hg & _ & Ha).
  rewrite Hg, Ha, !length_app, length_double, length_concat_pairs, length_seq.
  lia.
Qed.

(** The branch with the split returns, in the state the loop after the
    split ends in. *)
Lemma split_branch_ok (r : R) :
  g <= G ->
  exists pre st : locals R,
    split_branch N L mutation_rate g G flag r = Ok st
    /\ single_inv g pre
    /\ split_inv (firstn (ceil_half N) (new_generation_sequence pre))
         (skipn (ceil_half N) (new_generation_sequence pre))
         (generations pre) (avg_genetic_distances pre) (G - g) st.
Proof.
  intros HgG.
  destruct (post_split_loop_ok r HgG) as (pre & st & Hpre & Hinv & Hst & Hsinv & _).
  exists pre, st. split; [|now split].
  unfold split_branch. rewrite Hpre. cbn [bind].
  destruct (split_step N pre) as [st'|e]; cbn [bind] in *; [|discriminate].
  rewrite Hst. cbn [bind].
  destruct Hinv as (Hu & _). destruct Hsinv as (Hp1 & Hp2 & _).
  assert (Hf : (if negb flag
                then _ <- print_distance (population1 st) (half_N N) L ;;
                     print_distance (population2 st) (half_N N) L
                else Ok tt) = Ok tt).
  { destruct flag; cbn [negb]; [reflexivity|].
    rewrite Hp1, Hp2.
    rewrite !print_distance_ok;
      auto using half_N_nonzero, uniform_firstn, uniform_skipn. }
  rewrite Hf. reflexivity.
Qed.

(** The branch without a split returns, after [G] iterations. *)
Lemma no_split_branch_ok (r : R) :
  exists st : locals R,
    no_split_branch N L mutation_rate G flag r = Ok st /\ single_inv G st.
Proof.
  destruct (no_split_loop_ok G r) as [[st [Hst Hinv]] _].
  exists st. split; [|exact Hinv].
  unfold no_split_branch. rewrite Hst. cbn [bind].
  destruct Hinv as (Hu & _).
  destruct flag; cbn [negb bind]; [reflexivity|].
  rewrite print_distance_ok by auto using Qnat_nonzero. reflexivity.
Qed.

Lemma count_occ_seq (n : nat) :
  forall a t,
    count_occ Nat.eq_dec (seq a n) t = if (a <=? t)%nat && (t <? a + n)%nat then 1 else 0.
Proof.
  induction n as [|n IH]; intros a t; cbn [seq count_occ].
  - destruct (Nat.leb_spec a t), (Nat.ltb_spec t (a + 0)); cbn; try reflexivity; lia.
  - rewrite IH.
    destruct (Nat.eq_dec a t) as [Heq|Hne];
      destruct (Nat.leb_spec (S a) t), (Nat.ltb_spec t (S a + n)),
               (Nat.leb_spec a t), (Nat.ltb_spec t (a + S n));
      cbn; try reflexivity; lia.
Qed.

Lemma count_occ_double (l : list nat) (t : nat) :
  count_occ Nat.eq_dec (flat_map (fun t => [t; t]) l) t
  = 2 * count_occ Nat.eq_dec l t.
Proof.
  induction l as [|x l IH]; [reflexivity|].
  cbn [flat_map app count_occ]. rewrite IH.
  destruct (Nat.eq_dec x t); lia.
Qed.

Lemma map_fst_combine {A B : Type} (l : list A) :
  forall l' : list B, List.length l' = List.length l -> map fst (combine l l') = l.
Proof.
  induction l as [|x l IH]; intros [|y l'] H; try discriminate; [reflexivity|].
  cbn in *. f_equal. apply IH. lia.
Qed.

(** [main] returns, in one of two shapes. *)
Lemma main_ok (r : R) :
  exists (st : locals R) (rows : list (nat * Q)),
    main N L mutation_rate g G flag r = Ok (st, rows)
    /\ rows = combine (generations st) (avg_genetic_distances st)
    /\ List.length (avg_genetic_distances st) = List.length (generations st)
    /\ ((G <= g /\ single_inv G st)
        \/ (g < G /\ exists pre,
              single_inv g pre
              /\ split_inv (firstn (ceil_half N) (new_generation_sequence pre))
                   (skipn (ceil_half N) (new_generation_sequence pre))
                   (generations pre) (avg_genetic_distances pre) (G - g) st)).
Proof.
  unfold main. destruct (Nat.ltb_spec g G) as [Hlt|Hge].
  - destruct (split_branch_ok r (Nat.lt_le_incl _ _ Hlt))
      as (pre & st & Hb & Hinv & Hsinv).
    assert (Hlen : List.length (avg_genetic_distances st)
                   = List.length (generations st)).
    { eapply split_inv_lengths; [|exact Hsinv].
      destruct Hinv as (_ & _ & _ & _ & Hg & _ & Ha).
      now rewrite Hg, Ha, length_seq. }
    exists st, (combine (generations st) (avg_genetic_distances st)).
    rewrite Hb. cbn [bind]. rewrite (print_output_ok _ _ Hlen). cbn [bind].
    repeat split; auto. right. split; [exact Hlt|]. now exists pre.
  - destruct (no_split_branch_ok r) as (st & Hb & Hinv).
    assert (Hlen : List.length (avg_genetic_distances st)
                   = List.length (generations st)).
    { destruct Hinv as (_ & _ & _ & _ & Hg & _ & Ha).
      now rewrite Hg, Ha, length_seq. }
    exists st, (combine (generations st) (avg_genetic_distances st)).
    rewrite Hb. cbn [bind]. rewrite (print_output_ok _ _ Hlen). cbn [bind].
    repeat split; auto.
Qed.

(** C7, amended. [main] reports one row per entry of [generations]. When
    [g >= G] no split occurs and each generation number 1..G is reported
    once. When [g < G] each generation number 1..g is reported once and
    each generation number g+1..G is reported twice, once for each of the
    two populations. *)
Theorem reported_lineages (r : R) :
  exists (st : locals R) (rows : list (nat * Q)),
    main N L mutation_rate g G flag r = Ok (st, rows)
    /\ map fst rows = generations st
    /\ (G <= g ->
        population1 st = [] /\ population2 st = []
        /\ generations st = seq 1 G
        /\ forall t, 1 <= t <= G ->
                     count_occ Nat.eq_dec (generations st) t = 1)
    /\ (g < G ->
        generations st
        = seq 1 g ++ flat_map (fun t => [t; t]) (seq (S g) (G - g))
        /\ (forall t, 1 <= t <= g ->
                      count_occ Nat.eq_dec (generations st) t = 1)
        /\ (forall t, g < t <= G ->
                      count_occ Nat.eq_dec (generations st) t = 2)).
Proof.
  destruct (main_ok r) as (st & rows & Hmain & Hrows & Hlen & Hcase).
  exists st, rows. split; [exact Hmain|].
  split; [subst rows; now apply map_fst_combine|].
  destruct Hcase as [[Hge Hinv] | [Hlt [pre [Hinv Hsinv]]]].
  - split; [|intros; lia]. intros _.
    destruct Hinv as (_ & _ & Hp1 & Hp2 & Hg & _).
    repeat split; auto.
    intros t Ht. rewrite Hg, count_occ_seq.
    destruct (Nat.leb_spec 1 t), (Nat.ltb_spec t (1 + G)); cbn; try reflexivity; lia.
  - split; [intros; lia|]. intros _.
    destruct Hinv as (_ & _ & _ & _ & Hg0 & _).
    destruct Hsinv as (_ & _ & _ & Hg & _). rewrite Hg0 in Hg.
    split; [exact Hg|].
    split; intros t Ht; rewrite Hg, count_occ_app, count_occ_double, !count_occ_seq;
      destruct (Nat.leb_spec 1 t), (Nat.ltb_spec t (1 + g)),
               (Nat.leb_spec (S g) t), (Nat.ltb_spec t (S g + (G - g)));
      cbn; try reflexivity; lia.
Qed.

(** The length invariant for a rate that is a number (see [main_float] for
    a rate that is not). With [N >= 1] and [L >= 1]: the initial population,
    every population [reproduce] returns on a population of sequences of
    length [L], and both populations [split_populations] returns on one
    with its size as hint, have all their sequences of length [L]. So in
    every state of such a run every population held has sequences of length
    [L], [compare_sequences] on two of its members is on equal lengths and
    returns their Hamming count, and [main] ends without an exception. *)
Lemma sequence_length_numeric_rate (r : R) :
  uniform_length L (initialize_original_sequence N L)
  /\ (forall (pop : population) (r0 : R),
        uniform_length L pop ->
        exists out r', reproduce mutation_rate pop r0 = Ok (out, r')
                       /\ uniform_length L out
                       /\ List.length out = List.length pop)
  /\ (forall pop : population,
        uniform_length L pop ->
        exists p1 p2,
          split_populations pop (Qnat (List.length pop)) = Ok (p1, p2)
          /\ uniform_length L p1 /\ uniform_length L p2)
  /\ Forall populations_uniform (run_states r)
  /\ (forall (st : locals R) (pop : population) (a b : string),
        In st (run_states r) ->
        pop = new_generation_sequence st \/ pop = population1 st
        \/ pop = population2 st ->
        In a pop -> In b pop ->
        String.length a = String.length b
        /\ compare_sequences a b = Ok (hamming a b))
  /\ exists res, main N L mutation_rate g G flag r = Ok res.
Proof.
  assert (Hstates : Forall populations_uniform (run_states r)).
  { unfold run_states. destruct (Nat.ltb_spec g G) as [Hlt|Hge].
    - apply Forall_app. split.
      + destruct (pre_split_loop_ok g r) as [_ Hall].
        eapply Forall_impl; [|exact Hall].
        intros t [m (Hu & _ & Hp1 & Hp2 & _)].
        unfold populations_uniform. rewrite Hp1, Hp2.
        repeat split; auto; constructor.
      + destruct (post_split_loop_ok r (Nat.lt_le_incl _ _ Hlt))
          as (pre & st & _ & Hinv & _ & _ & Hall).
        destruct Hinv as (Hu & _).
        eapply Forall_impl; [|exact Hall].
        intros t [m (Hp1 & Hp2 & Hut & _)].
        unfold populations_uniform. rewrite Hp1, Hp2.
        repeat split; auto using uniform_firstn, uniform_skipn.
    - destruct (no_split_loop_ok G r) as [_ Hall].
      eapply Forall_impl; [|exact Hall].
      intros t [m (Hu & _ & Hp1 & Hp2 & _)].
      unfold populations_uniform. rewrite Hp1, Hp2.
      repeat split; auto; constructor. }
  split; [apply initialize_original_sequence_uniform|].
  split.
  { intros pop r0 Hu.
    exists (fst (reproduce_all mutation_rate pop r0)),
           (snd (reproduce_all mutation_rate pop r0)).
    rewrite reproduce_refines.
    split; [now destruct (reproduce_all mutation_rate pop r0)|].
    split; [now apply reproduce_all_uniform | apply reproduce_all_length]. }
  split.
  { intros pop Hu. eexists _, _. split; [apply split_populations_ok|].
    split; [now apply uniform_firstn | now apply uniform_skipn]. }
  split; [exact Hstates|].
  split.
  { intros st pop a b Hst Hpop Ha Hb.
    rewrite Forall_forall in Hstates.
    destruct (Hstates st Hst) as (H1 & H2 & H3).
    assert (Hu : uniform_length L pop)
      by (destruct Hpop as [->|[->| ->]]; assumption).
    unfold uniform_length in Hu. rewrite Forall_forall in Hu.
    pose proof (Hu a Ha) as HLa. pose proof (Hu b Hb) as HLb.
    split; [congruence|]. apply compare_sequences_ok. lia. }
  destruct (main_ok r) as (st & rows & Hmain & _). now exists (st, rows).
Qed.

Lemma odd_half_not_size (n : nat) :
  Nat.odd n = true ->
  ~ (Qnat n / 2 == Qnat (ceil_half n))%Q /\ ~ (Qnat n / 2 == Qnat (floor_half n))%Q.
Proof.
  intros Hodd. apply Nat.odd_spec in Hodd. destruct Hodd as [m Hm].
  pose proof (ceil_floor_half n) as Hcf.
  assert (Hc : ceil_half n = m + 1).
  { unfold ceil_half. replace (n + 1) with ((m + 1) * 2) by lia.
    apply Nat.div_mul. discriminate. }
  unfold Qeq, Qnat, Qdiv, Qmult, Qinv, inject_Z. cbn [Qnum Qden].
  split; lia.
Qed.

(** C9. When the split occurs ([g < G], [N >= 1], [L >= 1]) the two
    populations are the same in every state after the split, of sizes
    [ceil(N / 2)] and [floor(N / 2)], and the records after the first [g]
    are, for each remaining generation, the sum of the pairwise distances of
    [population1] and then of [population2], each divided by [N / 2] and
    then by [L]. For odd [N] the divisor [N / 2] is the size of neither
    population. *)
Theorem post_split_divisor (r : R) :
  g < G ->
  exists (st : locals R) (rows : list (nat * Q)),
    main N L mutation_rate g G flag r = Ok (st, rows)
    /\ Forall (fun t => population1 t = population1 st
                        /\ population2 t = population2 st)
         (post_split_states r)
    /\ List.length (population1 st) = ceil_half N
    /\ List.length (population2 st) = floor_half N
    /\ skipn g (avg_genetic_distances st)
       = List.concat
           (repeat
              [(Qnat (pair_sum (population1 st)) / (Qnat N / 2) / Qnat L)%Q;
               (Qnat (pair_sum (population2 st)) / (Qnat N / 2) / Qnat L)%Q]
              (G - g))
    /\ (Nat.odd N = true ->
        ~ (Qnat N / 2 == Qnat (List.length (population1 st)))%Q
        /\ ~ (Qnat N / 2 == Qnat (List.length (population2 st)))%Q).
Proof.
  intros Hlt.
  destruct (main_ok r) as (st & rows & Hmain & _ & _ & Hcase).
  destruct Hcase as [[Hge _] | [_ [pre [Hinv Hsinv]]]]; [lia|].
  destruct (post_split_loop_ok r (Nat.lt_le_incl _ _ Hlt))
    as (pre' & st' & Hpre' & Hinv' & Hst' & Hsinv' & Hall).
  (* the two descriptions of the run agree *)
  assert (Hsame : st' = st).
  { unfold main in Hmain. rewrite (proj2 (Nat.ltb_lt g G) Hlt) in Hmain.
    unfold split_branch in Hmain. rewrite Hpre' in Hmain. cbn [bind] in Hmain.
    destruct (split_step N pre') as [s1|e]; cbn [bind] in *; [|discriminate].
    rewrite Hst' in Hmain. cbn [bind] in Hmain.
    destruct (if negb flag then _ else _); cbn [bind] in Hmain; [|discriminate].
    destruct (print_output _ _); cbn [bind] in Hmain; [|discriminate].
    congruence. }
  subst st'. clear pre Hinv Hsinv.
  destruct Hinv' as (Hu & HlenN & _ & _ & Hg0 & _ & Ha0).
  destruct Hsinv' as (Hp1 & Hp2 & _ & _ & _ & Ha).
  pose proof (ceil_floor_half N) as Hcf.
  assert (Hl1 : List.length (population1 st) = ceil_half N)
    by (rewrite Hp1, length_firstn; lia).
  assert (Hl2 : List.length (population2 st) = floor_half N)
    by (rewrite Hp2, length_skipn; lia).
  exists st, rows. split; [exact Hmain|].
  split.
  { eapply Forall_impl; [|exact Hall].
    intros t [m (Ht1 & Ht2 & _)]. now rewrite Ht1, Ht2, Hp1, Hp2. }
  split; [exact Hl1|]. split; [exact Hl2|].
  split.
  { rewrite Ha, Hp1, Hp2, skipn_app, <- Ha0, skipn_all, Nat.sub_diag.
    reflexivity. }
  intros Hodd. rewrite Hl1, Hl2. now apply odd_half_not_size.
Qed.

End ControllerFacts.

(** ** Concrete runs *)

(** C1. The two populations are not advanced after the split. In the run
    with [N = 2], [L = 1], rate 1, [g = 1], [G = 3] on [half_source], the
    first iteration after the split calls [reproduce] on [population1] and
    gets a different population, yet [population1] is the same in the next
    state: the result went to [new_generation_sequence]. *)
Theorem post_split_lineage_not_advanced :
  exists (st0 st1 : locals nat) (rest : list (locals nat))
         (child : population) (r' : nat),
    @post_split_states nat half_source 2 1 1 1 3 false 0 = st0 :: st1 :: rest
    /\ @reproduce nat half_source 1 (population1 st0) (rng st0) = Ok (child, r')
    /\ population1 st1 = population1 st0
    /\ child <> population1 st1.
Proof.
  eexists _, _, _, _, _.
  split; [vm_compute; reflexivity|].
  split; [vm_compute; reflexivity|].
  split; [reflexivity | discriminate].
Qed.

(** C5 as stated fails: at rate 1 the pick may be the parent's own symbol.
    On [zero_source] the parent "C" is reproduced as "C". *)
Lemma reproduce_rate_one_same_symbol :
  exists (out : population) (r' : nat),
    @reproduce nat zero_source 1 ["C"] 0 = Ok (out, r')
    /\ nth_error out 0 = Some "C".
Proof.
  eexists _, _. split; [vm_compute; reflexivity | reflexivity].
Qed.

(** C6 as stated fails: a draw equal to 0 satisfies [0 <= 0], so at rate 0
    the site is replaced. On [zero_source] the population ["A"] becomes
    ["C"]. *)
Lemma reproduce_rate_zero_mutates :
  exists (out : population) (r' : nat),
    @reproduce nat zero_source 0 ["A"] 0 = Ok (out, r')
    /\ out <> ["A"].
Proof.
  eexists _, _. split; [vm_compute; reflexivity | discriminate].
Qed.

(** C7 as stated fails at generation [g]: with [N = 4], [L = 5], rate 0,
    [g = 2], [G = 4], generation 2 is reported once, not twice, and
    generation 4 is reported twice. *)
Lemma generation_g_reported_once :
  exists (st : locals nat) (rows : list (nat * Q)),
    @main nat half_source 4 5 0 2 4 false 0 = Ok (st, rows)
    /\ generations st = [1; 2; 3; 3; 4; 4]
    /\ count_occ Nat.eq_dec (generations st) 2 = 1
    /\ count_occ Nat.eq_dec (generations st) 2 <> 2.
Proof.
  eexists _, _. split; [vm_compute; reflexivity|].
  split; [reflexivity|]. split; [reflexivity | discriminate].
Qed.

Lemma mutate_per_site_witness :
  @mutate nat half_source (1 # 2) "AG" 0 = Ok ("TC", 4)
  /\ String.get 0 (fst (@mutate_sites nat half_source (1 # 2) "AG" 0)) = Some "T"%char
  /\ String.get 0 (fst (@mutate_sites nat half_source 0 "AG" 0)) = Some "A"%char.
Proof.
  destruct (@mutate_per_site nat half_source (1 # 2) "AG" 0) as (Hm & _ & _ & Hsite).
  destruct (@mutate_per_site nat half_source 0 "AG" 0) as (_ & _ & _ & Hsite0).
  split; [exact Hm|]. split.
  - destruct (Hsite 0 "A"%char eq_refl) as (_ & _ & Hle & _).
    destruct Hle as (_ & _ & Hget & _); [vm_compute; discriminate | exact Hget].
  - destruct (Hsite0 0 "A"%char eq_refl) as (_ & _ & _ & Hgt).
    destruct Hgt as (Hget & _); [reflexivity | exact Hget].
Defined.

Lemma reproduce_rate_one_witness :
  exists (out : population) (r' : nat),
    @reproduce nat half_source 1 ["AA"; "CA"] 0 = Ok (out, r')
    /\ List.length out = 2.
Proof.
  destruct (@reproduce_rate_one nat half_source ["AA"; "CA"] 0)
    as (out & r' & Hrep & Hall).
  exists out, r'. split; [exact Hrep|].
  symmetry. exact (Forall2_length Hall).
Defined.

Lemma reproduce_rate_zero_witness :
  (forall r0 : nat, (0 < fst (@random nat half_source r0))%Q)
  /\ exists r' : nat,
       @reproduce nat half_source 0 ["ACGT"; "AAAA"] 0 = Ok (["ACGT"; "AAAA"], r').
Proof.
  assert (H : forall r0 : nat, (0 < fst (@random nat half_source r0))%Q)
    by (intros r0; reflexivity).
  split; [exact H|].
  exact (@reproduce_rate_zero nat half_source ["ACGT"; "AAAA"] 0 H).
Defined.

Lemma genetic_distance_average_witness :
  genetic_distance ["AA"; "AC"; "CC"] (Qnat 3) 2
  = Ok (Qnat 4 / Qnat 3 / Qnat 2)%Q.
Proof.
  assert (Hu : uniform_length 2 ["AA"; "AC"; "CC"])
    by (repeat constructor).
  destruct (genetic_distance_average ["AA"; "AC"; "CC"] 2) as (_ & _ & Hg & _).
  - cbn. lia.
  - lia.
  - exact Hu.
  - exact Hg.
Defined.

Lemma split_populations_positional_witness :
  exists p1 p2 : population,
    split_populations ["a"; "b"; "c"; "d"; "e"; "f"; "g"] (Qnat 7) = Ok (p1, p2)
    /\ List.length p1 = 4 /\ List.length p2 = 3.
Proof.
  destruct (split_populations_positional ["a"; "b"; "c"; "d"; "e"; "f"; "g"])
    as (p1 & p2 & Hs & _ & _ & _ & _ & _ & _ & H7).
  exists p1, p2. split; [exact Hs|]. apply H7. reflexivity.
Defined.

Lemma reported_lineages_witness :
  exists (st : locals nat) (rows : list (nat * Q)),
    @main nat half_source 4 5 0 2 4 false 0 = Ok (st, rows)
    /\ count_occ Nat.eq_dec (generations st) 2 = 1
    /\ count_occ Nat.eq_dec (generations st) 3 = 2.
Proof.
  destruct (@reported_lineages nat half_source 4 5 0 2 4 false) with (r := 0)
    as (st & rows & Hmain & _ & _ & Hsplit); [lia | lia |].
  destruct Hsplit as (_ & H1 & H2); [lia|].
  exists st, rows. split; [exact Hmain|].
  split; [apply H1; lia | apply H2; lia].
Defined.

Lemma post_split_divisor_witness :
  exists (st : locals nat) (rows : list (nat * Q)),
    @main nat half_source 3 2 1 1 3 false 0 = Ok (st, rows)
    /\ List.length (population1 st) = 2
    /\ List.length (population2 st) = 1
    /\ ~ (Qnat 3 / 2 == Qnat (List.length (population1 st)))%Q.
Proof.
  destruct (@post_split_divisor nat half_source 3 2 1 1 3 false) with (r := 0)
    as (st & rows & Hmain & _ & H1 & H2 & _ & Hodd); [lia | lia | lia |].
  exists st, rows. split; [exact Hmain|].
  split; [exact H1|]. split; [exact H2|].
  apply Hodd. reflexivity.
Defined.

(** * Further properties of the engine *)

From Stdlib Require Import ZArith Permutation Sorted Lqa.

(** ** The initial population *)

Lemma all_A_sites (n i : nat) (c : ascii) :
  String.get i (all_A n) = Some c -> c = "A"%char.
Proof.
  revert i. induction n as [|n IH]; intros i H; [now destruct i|].
  destruct i as [|i]; cbn in H; [congruence | now apply (IH i)].
Qed.

(** X1. [initialize_original_sequence(N, L)] is a list of exactly [N]
    sequences, each of length [L] and holding A at every site; for [N = 0]
    it is empty and for [L = 0] its members are empty strings. *)
Theorem initial_population_all_A (N L : nat) :
  initialize_original_sequence N L = repeat (all_A L) N
  /\ List.length (initialize_original_sequence N L) = N
  /\ (forall s, In s (initialize_original_sequence N L) ->
        String.length s = L
        /\ forall i c, String.get i s = Some c -> c = "A"%char)
  /\ initialize_original_sequence 0 L = []
  /\ initialize_original_sequence N 0 = repeat EmptyString N.
Proof.
  split; [apply initialize_original_sequence_ok|].
  split; [apply initialize_original_sequence_length|].
  split; [|split; [reflexivity | apply initialize_original_sequence_ok]].
  intros s Hs. rewrite initialize_original_sequence_ok in Hs.
  apply repeat_spec in Hs. subst s.
  split; [apply all_A_length | intros i c; apply all_A_sites].
Qed.

Lemma initial_population_all_A_witness :
  initialize_original_sequence 2 3 = ["AAA"; "AAA"]
  /\ String.length "AAA" = 3.
Proof.
  destruct (initial_population_all_A 2 3) as (Heq & _ & Hall & _).
  split; [exact Heq|].
  destruct (Hall "AAA") as [Hlen _]; [rewrite Heq; now left | exact Hlen].
Defined.

(** ** [compare_sequences] on sequences of one length *)

Lemma differs_at_sym (a b : string) (i : nat) :
  differs_at a b i = differs_at b a i.
Proof.
  unfold differs_at.
  destruct (String.get i a), (String.get i b); try reflexivity.
  now rewrite Ascii.eqb_sym.
Qed.

Lemma differs_at_refl (a : string) (i : nat) : differs_at a a i = false.
Proof.
  unfold differs_at. destruct (String.get i a); [|reflexivity].
  now rewrite Ascii.eqb_refl.
Qed.

Lemma hamming_sym (a b : string) :
  String.length a = String.length b -> hamming a b = hamming b a.
Proof.
  intros Hlen. unfold hamming, differing_positions. rewrite Hlen. f_equal.
  apply filter_ext. intros i. apply differs_at_sym.
Qed.

Lemma filter_length_bound {A : Type} (f : A -> bool) (l : list A) :
  List.length (filter f l) <= List.length l.
Proof.
  induction l as [|x l IH]; cbn; [lia|]. destruct (f x); cbn; lia.
Qed.

Lemma filter_empty_all_false {A : Type} (f : A -> bool) (l : list A) :
  List.length (filter f l) = 0 <-> forall x, In x l -> f x = false.
Proof.
  induction l as [|x l IH]; cbn.
  - split; [intros _ y [] | reflexivity].
  - destruct (f x) eqn:E; cbn.
    + split; [discriminate|]. intros H. specialize (H x (or_introl eq_refl)).
      congruence.
    + rewrite IH. split.
      * intros H y [<-|Hy]; [exact E | now apply H].
      * intros H y Hy. apply H. now right.
Qed.

Lemma hamming_le (a b : string) : hamming a b <= String.length a.
Proof.
  unfold hamming, differing_positions.
  rewrite <- (length_seq (String.length a) 0) at 2. apply filter_length_bound.
Qed.

Lemma hamming_refl (a : string) : hamming a a = 0.
Proof.
  unfold hamming, differing_positions. apply filter_empty_all_false.
  intros i _. apply differs_at_refl.
Qed.

Lemma hamming_zero_eq (a b : string) :
  String.length a = String.length b -> hamming a b = 0 -> a = b.
Proof.
  intros Hlen H0. unfold hamming, differing_positions in H0.
  rewrite filter_empty_all_false in H0.
  apply get_correct. intros n.
  destruct (Nat.lt_ge_cases n (String.length a)) as [Hn|Hn].
  - assert (Hd : differs_at a b n = false) by (apply H0, in_seq; lia).
    destruct (get_lt a n Hn) as [x Hx].
    destruct (get_lt b n) as [y Hy]; [lia|].
    unfold differs_at in Hd. rewrite Hx, Hy in Hd. rewrite Hx, Hy.
    apply negb_false_iff, Ascii.eqb_eq in Hd. now subst.
  - rewrite (get_ge a n Hn), (get_ge b n) by lia. reflexivity.
Qed.

(** X2. On two sequences of one length [compare_sequences] returns their
    Hamming count without an exception; the count is the same in both
    orders, is at most the length, and is 0 exactly when the sequences are
    equal. *)
Theorem compare_sequences_equal_lengths (a b : string) :
  String.length a = String.length b ->
  compare_sequences a b = Ok (hamming a b)
  /\ compare_sequences b a = compare_sequences a b
  /\ hamming a b <= String.length a
  /\ (hamming a b = 0 <-> a = b).
Proof.
  intros Hlen.
  split; [apply compare_sequences_ok; lia|].
  split; [rewrite !compare_sequences_ok by lia; now rewrite hamming_sym|].
  split; [apply hamming_le|].
  split; [now apply hamming_zero_eq | intros ->; apply hamming_refl].
Qed.

Lemma compare_sequences_equal_lengths_witness :
  compare_sequences "ACGT" "AGGA" = Ok 2
  /\ compare_sequences "AGGA" "ACGT" = Ok 2.
Proof.
  destruct (compare_sequences_equal_lengths "ACGT" "AGGA" eq_refl)
    as (H1 & H2 & _).
  split; [exact H1 | rewrite H2; exact H1].
Defined.

(** ** [genetic_distance] on any population *)

(** No member of the population is longer than a later member. *)
Definition lengths_nondecreasing (pop : population) : Prop :=
  StronglySorted (fun a b => String.length a <= String.length b) pop.

(** The inner loop of [genetic_distance]: [a] against each later member. *)
Fixpoint compare_all (a : string) (rest : population) : result (list nat) :=
  match rest with
  | [] => Ok []
  | x :: rest' =>
      d <- compare_sequences a x ;;
      ds <- compare_all a rest' ;;
      Ok (d :: ds)
  end.

(** The two loops of [genetic_distance]: each member against each later
    one, stopping at the first exception. *)
Fixpoint compare_pairs (pop : population) : result (list nat) :=
  match pop with
  | [] => Ok []
  | a :: rest =>
      ds1 <- compare_all a rest ;;
      ds2 <- compare_pairs rest ;;
      Ok (ds1 ++ ds2)
  end.

Lemma for_elements_compare_all (a : string) (rest : population) :
  forall (k : nat) (distances : list nat),
    for_elements k rest
      (fun _ x ds => d <- compare_sequences a x ;; Ok (ds ++ [d])) distances
    = (ds <- compare_all a rest ;; Ok (distances ++ ds)).
Proof.
  induction rest as [|x rest IH]; intros k distances; cbn [for_elements compare_all bind].
  - now rewrite app_nil_r.
  - destruct (compare_sequences a x) as [d|e]; cbn [bind]; [|reflexivity].
    rewrite IH. destruct (compare_all a rest) as [ds|e]; cbn [bind]; [|reflexivity].
    now rewrite <- app_assoc.
Qed.

Lemma pairwise_distances_loop (pop : population) :
  forall (l2 l1 : population) (distances : list nat),
    pop = l1 ++ l2 ->
    for_each (seq (List.length l1) (List.length l2))
      (fun index distances =>
         for_each (range (index + 1) (List.length pop))
           (fun index2 distances =>
              s1 <- getitem_list pop index ;;
              s2 <- getitem_list pop index2 ;;
              d <- compare_sequences s1 s2 ;;
              Ok (distances ++ [d]))
           distances)
      distances
    = (ds <- compare_pairs l2 ;; Ok (distances ++ ds)).
Proof.
  induction l2 as [|a l2 IH]; intros l1 distances Hpop.
  - cbn. now rewrite app_nil_r.
  - cbn [List.length seq for_each compare_pairs].
    assert (Hinner :
      for_each (range (List.length l1 + 1) (List.length pop))
        (fun index2 distances =>
           s1 <- getitem_list pop (List.length l1) ;;
           s2 <- getitem_list pop index2 ;;
           d <- compare_sequences s1 s2 ;;
           Ok (distances ++ [d]))
        distances
      = (ds <- compare_all a l2 ;; Ok (distances ++ ds))).
    { unfold range.
      replace (List.length pop - (List.length l1 + 1)) with (List.length l2)
        by (rewrite Hpop, length_app; cbn [List.length]; lia).
      replace (List.length l1 + 1) with (List.length (l1 ++ [a]))
        by (rewrite length_app; reflexivity).
      rewrite (for_each_over_suffix l2 (l1 ++ [a]) _
                 (fun _ x ds => d <- compare_sequences a x ;; Ok (ds ++ [d]))).
      - apply for_elements_compare_all.
      - intros i x ds Hx _. unfold getitem_list.
        rewrite <- app_assoc in Hx. cbn [app] in Hx. rewrite <- Hpop in Hx.
        rewrite Hx.
        replace (nth_error pop (List.length l1)) with (Some a); [reflexivity|].
        rewrite Hpop, nth_error_app2, Nat.sub_diag by lia. reflexivity. }
    rewrite Hinner.
    destruct (compare_all a l2) as [ds1|e]; cbn [bind]; [|reflexivity].
    specialize (IH (l1 ++ [a]) (distances ++ ds1)).
    rewrite length_app, Nat.add_1_r in IH. rewrite IH.
    + destruct (compare_pairs l2) as [ds2|e]; cbn [bind]; [|reflexivity].
      now rewrite <- app_assoc.
    + now rewrite <- app_assoc.
Qed.

Lemma pairwise_distances_compare_pairs (pop : population) :
  pairwise_distances pop = compare_pairs pop.
Proof.
  unfold pairwise_distances. rewrite range_0.
  pose proof (pairwise_distances_loop pop pop [] [] eq_refl) as H.
  cbn [List.length] in H. rewrite H.
  now destruct (compare_pairs pop).
Qed.

Lemma compare_all_ok (a : string) (rest : population) :
  Forall (fun b => String.length a <= String.length b) rest ->
  compare_all a rest = Ok (map (hamming a) rest).
Proof.
  induction 1 as [|x rest Hx _ IH]; cbn [compare_all map]; [reflexivity|].
  now rewrite compare_sequences_ok, IH.
Qed.

Lemma compare_all_index_error (a : string) (rest : population) :
  ~ Forall (fun b => String.length a <= String.length b) rest ->
  compare_all a rest = Raise IndexError.
Proof.
  induction rest as [|x rest IH]; intros Hnot; cbn [compare_all].
  - exfalso. apply Hnot. constructor.
  - destruct (Nat.le_gt_cases (String.length a) (String.length x)) as [Hle|Hgt].
    + rewrite compare_sequences_ok by exact Hle. cbn [bind].
      rewrite IH; [reflexivity|].
      intros Hall. apply Hnot. now constructor.
    + now rewrite compare_sequences_index_error.
Qed.

Lemma compare_pairs_ok (pop : population) :
  lengths_nondecreasing pop -> compare_pairs pop = Ok (pair_distances pop).
Proof.
  induction 1 as [|a rest _ IH Hall]; cbn [compare_pairs pair_distances];
    [reflexivity|].
  now rewrite (compare_all_ok a rest Hall), IH.
Qed.

Lemma compare_pairs_index_error (pop : population) :
  ~ lengths_nondecreasing pop -> compare_pairs pop = Raise IndexError.
Proof.
  induction pop as [|a rest IH]; intros Hnot; cbn [compare_pairs].
  - exfalso. apply Hnot. constructor.
  - destruct (Forall_dec (fun b => String.length a <= String.length b)
                (fun b => le_dec (String.length a) (String.length b)) rest)
      as [Hall|Hnall].
    + rewrite (compare_all_ok a rest Hall). cbn [bind].
      rewrite IH; [reflexivity|].
      intros Hs. apply Hnot. now constructor.
    + now rewrite compare_all_index_error.
Qed.

(** X3. [genetic_distance] raises [IndexError] exactly when some member of
    the population is longer than a later member, whatever [N] and [L] are
    (the comparisons run before the divisions). A population whose lengths
    never decrease is accepted even when its lengths differ: the result is
    then the sum over the pairs of the counts on the shorter sequence's
    positions, divided by [N] and by [L]. *)
Theorem genetic_distance_length_check (pop : population) (N : Q) (L : nat) :
  (lengths_nondecreasing pop ->
     pairwise_distances pop = Ok (pair_distances pop)
     /\ genetic_distance pop N L
        = (q <- truediv (Qnat (pair_sum pop)) N ;; truediv q (Qnat L)))
  /\ (~ lengths_nondecreasing pop ->
        pairwise_distances pop = Raise IndexError
        /\ genetic_distance pop N L = Raise IndexError).
Proof.
  unfold genetic_distance. rewrite pairwise_distances_compare_pairs. split.
  - intros Hs. rewrite (compare_pairs_ok pop Hs). cbn [bind].
    now rewrite sum_values_list_sum.
  - intros Hn. now rewrite (compare_pairs_index_error pop Hn).
Qed.

Lemma genetic_distance_length_check_witness :
  genetic_distance ["A"; "CG"; "CGT"] 3 1 = Ok (Qnat 2 / 3 / Qnat 1)%Q
  /\ genetic_distance ["CG"; "A"] 0 0 = Raise IndexError.
Proof.
  destruct (genetic_distance_length_check ["A"; "CG"; "CGT"] 3 1) as [Hok _].
  destruct (genetic_distance_length_check ["CG"; "A"] 0 0) as [_ Herr].
  split.
  - destruct Hok as [_ Hg]; [|exact Hg].
    repeat constructor; cbn; lia.
  - apply Herr. intros Hs. inversion Hs as [|? ? _ Hall]; subst.
    inversion Hall as [|? ? Hle _]; subst. cbn in Hle. lia.
Defined.

Lemma truediv_zero (a b : Q) : (b == 0)%Q -> truediv a b = Raise ZeroDivisionError.
Proof.
  intros Hb. unfold truediv. now rewrite (Qeq_eq_bool _ _ Hb).
Qed.

(** An [int] that Python's [/] converts to a float without
    [OverflowError]. Every [int] below [2^1023] is one (the conversion
    fails from just below [2^1024] on); beyond the range [x / L] raises
    [OverflowError], which [truediv] does not model. *)
Definition fits_float (n : nat) : Prop := (Z.of_nat n < 2 ^ 1023)%Z.

(** X4. On a population that passes the length check, [genetic_distance]
    raises [ZeroDivisionError] when [N] is 0, and when [N] is not 0 but
    [L] is 0; with [N] not 0 and [L >= 1] within the range of a float it
    returns the quotient, which is 0 for an empty population. *)
Theorem genetic_distance_zero_division (pop : population) (N : Q) (L : nat) :
  lengths_nondecreasing pop ->
  ((N == 0)%Q -> genetic_distance pop N L = Raise ZeroDivisionError)
  /\ (~ (N == 0)%Q -> L = 0 ->
      genetic_distance pop N L = Raise ZeroDivisionError)
  /\ (~ (N == 0)%Q -> 1 <= L -> fits_float L ->
      genetic_distance pop N L = Ok (Qnat (pair_sum pop) / N / Qnat L)%Q
      /\ (pop = [] -> (Qnat (pair_sum pop) / N / Qnat L == 0)%Q)).
Proof.
  intros Hs. unfold genetic_distance.
  rewrite pairwise_distances_compare_pairs, (compare_pairs_ok pop Hs).
  cbn [bind]. rewrite sum_values_list_sum. fold (pair_sum pop).
  split; [|split].
  - intros HN. now rewrite (truediv_zero _ N HN).
  - intros HN ->. rewrite (truediv_ok _ N HN). cbn [bind].
    now apply truediv_zero.
  - intros HN HL _. rewrite (truediv_ok _ N HN). cbn [bind].
    split; [apply truediv_ok; now apply Qnat_nonzero|].
    intros ->. unfold pair_sum. cbn [pair_distances list_sum].
    unfold Qdiv. now rewrite !Qmult_0_l.
Qed.

Lemma genetic_distance_zero_division_witness :
  genetic_distance ["AC"; "AG"] 0 2 = Raise ZeroDivisionError
  /\ genetic_distance ["AC"; "AG"] 2 0 = Raise ZeroDivisionError
  /\ genetic_distance ["AC"; "AG"] 2 2 = Ok (Qnat 1 / 2 / Qnat 2)%Q.
Proof.
  assert (Hs : lengths_nondecreasing ["AC"; "AG"])
    by (repeat constructor; cbn; lia).
  split; [|split].
  - destruct (genetic_distance_zero_division ["AC"; "AG"] 0 2 Hs) as (H & _).
    apply H. reflexivity.
  - destruct (genetic_distance_zero_division ["AC"; "AG"] 2 0 Hs) as (_ & H & _).
    apply H; [discriminate | reflexivity].
  - destruct (genetic_distance_zero_division ["AC"; "AG"] 2 2 Hs) as (_ & _ & H).
    destruct H as [H _]; [discriminate | lia | reflexivity | exact H].
Defined.

(** ** The value of [genetic_distance] *)

Lemma uniform_nondecreasing (L : nat) (pop : population) :
  uniform_length L pop -> lengths_nondecreasing pop.
Proof.
  unfold uniform_length, lengths_nondecreasing.
  induction 1 as [|a rest Ha Hrest IH]; constructor; [exact IH|].
  eapply Forall_impl; [|exact Hrest]. cbn. intros b Hb. lia.
Qed.

Lemma pair_sum_cons (a : string) (rest : population) :
  pair_sum (a :: rest) = list_sum (map (hamming a) rest) + pair_sum rest.
Proof. unfold pair_sum. cbn [pair_distances]. apply list_sum_app. Qed.

Lemma list_sum_hamming_equal (s : string) (rest : population) :
  Forall (fun x => x = s) rest -> list_sum (map (hamming s) rest) = 0.
Proof.
  induction rest as [|b rest IH]; intros Hall; [reflexivity|].
  change (list_sum (map (hamming s) (b :: rest)))
    with (hamming s b + list_sum (map (hamming s) rest)).
  rewrite (Forall_inv Hall), hamming_refl, (IH (Forall_inv_tail Hall)).
  reflexivity.
Qed.

Lemma pair_sum_all_equal (s : string) (pop : population) :
  Forall (fun x => x = s) pop -> pair_sum pop = 0.
Proof.
  induction pop as [|a rest IH]; intros Hall; [reflexivity|].
  rewrite pair_sum_cons, (IH (Forall_inv_tail Hall)), (Forall_inv Hall).
  now rewrite (list_sum_hamming_equal s rest (Forall_inv_tail Hall)).
Qed.

(** X5. A population whose members are all the same sequence has average
    distance 0, for every nonzero [N] and every [L >= 1] within the range
    of a float. *)
Theorem genetic_distance_identical (s : string) (pop : population) (N : Q) (L : nat) :
  Forall (fun x => x = s) pop -> ~ (N == 0)%Q -> 1 <= L -> fits_float L ->
  exists q : Q, genetic_distance pop N L = Ok q /\ (q == 0)%Q.
Proof.
  intros Hall HN HL _.
  assert (Hu : uniform_length (String.length s) pop).
  { unfold uniform_length. eapply Forall_impl; [|exact Hall].
    cbn. now intros x ->. }
  exists (Qnat (pair_sum pop) / N / Qnat L)%Q.
  split; [now apply (genetic_distance_ok (String.length s))|].
  rewrite (pair_sum_all_equal s pop Hall).
  unfold Qdiv. now rewrite !Qmult_0_l.
Qed.

Lemma genetic_distance_identical_witness :
  exists q : Q, genetic_distance ["ACG"; "ACG"; "ACG"] 3 3 = Ok q /\ (q == 0)%Q.
Proof.
  apply (genetic_distance_identical "ACG").
  - repeat constructor.
  - discriminate.
  - lia.
  - reflexivity.
Defined.

Lemma pair_distances_bounded (L : nat) (pop : population) :
  uniform_length L pop -> Forall (fun d => d <= L) (pair_distances pop).
Proof.
  unfold uniform_length.
  induction 1 as [|a rest Ha _ IH]; cbn [pair_distances]; [constructor|].
  apply Forall_app. split; [|exact IH].
  apply Forall_forall. intros d Hd. apply in_map_iff in Hd.
  destruct Hd as [x [<- _]]. rewrite <- Ha. apply hamming_le.
Qed.

Lemma list_sum_bounded (L : nat) (l : list nat) :
  Forall (fun d => d <= L) l -> list_sum l <= List.length l * L.
Proof.
  induction 1 as [|d l Hd _ IH]; simpl in *; lia.
Qed.

Lemma pair_sum_bounded (L : nat) (pop : population) :
  uniform_length L pop ->
  2 * pair_sum pop <= List.length pop * (List.length pop - 1) * L.
Proof.
  intros Hu. unfold pair_sum.
  pose proof (list_sum_bounded L _ (pair_distances_bounded L pop Hu)) as Hs.
  rewrite pair_distances_length in Hs. unfold choose2 in Hs.
  pose proof (Nat.Div0.mul_div_le (List.length pop * (List.length pop - 1)) 2) as Hd.
  nia.
Qed.

Lemma Qnat_mult (a b : nat) : (Qnat (a * b) == Qnat a * Qnat b)%Q.
Proof. unfold Qnat. now rewrite Nat2Z.inj_mul, inject_Z_mult. Qed.

Lemma Qnat_le (a b : nat) : a <= b -> (Qnat a <= Qnat b)%Q.
Proof. intros H. unfold Qnat. rewrite <- Zle_Qle. lia. Qed.

Lemma Qnat_pos (a : nat) : 1 <= a -> (0 < Qnat a)%Q.
Proof. intros H. unfold Qnat, Qlt. cbn. lia. Qed.

Lemma genetic_distance_in_bounds (pop : population) (L : nat) :
  1 <= List.length pop -> 1 <= L -> uniform_length L pop ->
  exists q : Q,
    genetic_distance pop (Qnat (List.length pop)) L = Ok q
    /\ (0 <= q)%Q /\ (q <= Qnat (List.length pop - 1) / 2)%Q.
Proof.
  intros Hn HL Hu.
  exists (Qnat (pair_sum pop) / Qnat (List.length pop) / Qnat L)%Q.
  split; [apply (genetic_distance_ok L); auto using Qnat_nonzero|].
  pose proof (Qnat_pos _ Hn) as Hn0. pose proof (Qnat_pos _ HL) as HL0.
  pose proof (Qnat_le 0 (pair_sum pop) (Nat.le_0_l _)) as Hp0.
  change (Qnat 0) with 0%Q in Hp0.
  pose proof (Qnat_le _ _ (pair_sum_bounded L pop Hu)) as Hb.
  rewrite !Qnat_mult in Hb. change (Qnat 2) with 2%Q in Hb.
  split.
  - apply Qle_shift_div_l; [exact HL0|]. apply Qle_shift_div_l; [exact Hn0|].
    lra.
  - apply Qle_shift_div_r; [exact HL0|]. apply Qle_shift_div_r; [exact Hn0|].
    set (p := Qnat (pair_sum pop)) in *. set (n := Qnat (List.length pop)) in *.
    set (m := Qnat (List.length pop - 1)) in *. set (l := Qnat L) in *.
    assert (Heq : (m / 2 * l * n == n * m * l / 2)%Q) by field.
    rewrite Heq. apply Qle_shift_div_l; [reflexivity|]. lra.
Qed.

(** X6. On a population of [n >= 1] sequences of length [L >= 1] the value
    [genetic_distance] returns for [N = n] lies between 0 and [(n - 1) / 2];
    and it is not bounded by 1: four sequences that differ from each other
    at every site reach the bound [3 / 2]. *)
Theorem genetic_distance_bounds :
  (forall (pop : population) (L : nat),
     1 <= List.length pop -> 1 <= L -> uniform_length L pop ->
     exists q : Q,
       genetic_distance pop (Qnat (List.length pop)) L = Ok q
       /\ (0 <= q)%Q /\ (q <= Qnat (List.length pop - 1) / 2)%Q)
  /\ (exists (pop : population) (L : nat) (q : Q),
        1 <= L /\ uniform_length L pop
        /\ genetic_distance pop (Qnat (List.length pop)) L = Ok q
        /\ (1 < q)%Q
        /\ (q == Qnat (List.length pop - 1) / 2)%Q).
Proof.
  split; [exact genetic_distance_in_bounds|].
  exists ["A"; "C"; "G"; "T"], 1, (Qnat 6 / Qnat 4 / Qnat 1)%Q.
  split; [lia|]. split; [repeat constructor|].
  split; [reflexivity|]. split; reflexivity.
Qed.

Lemma genetic_distance_bounds_witness :
  exists q : Q,
    genetic_distance ["AA"; "CC"; "GG"] (Qnat 3) 2 = Ok q
    /\ (0 <= q)%Q /\ (q <= Qnat 2 / 2)%Q.
Proof.
  destruct genetic_distance_bounds as [Hbound _].
  destruct (Hbound ["AA"; "CC"; "GG"] 2) as (q & Hq & H0 & H1).
  - cbn. lia.
  - lia.
  - repeat constructor.
  - exists q. split; [exact Hq|]. split; [exact H0 | exact H1].
Defined.

Lemma list_sum_permutation (l l' : list nat) :
  Permutation l l' -> list_sum l = list_sum l'.
Proof. induction 1; simpl in *; lia. Qed.

Lemma list_sum_map_cons {A : Type} (f : A -> nat) (x : A) (l : list A) :
  list_sum (map f (x :: l)) = f x + list_sum (map f l).
Proof. reflexivity. Qed.

Lemma pair_sum_permutation (pop pop' : population) :
  Permutation pop pop' ->
  (forall a b, In a pop -> In b pop -> hamming a b = hamming b a) ->
  pair_sum pop = pair_sum pop'.
Proof.
  induction 1 as [|x l l' Hp IH|x y l|l l' l'' Hp1 IH1 Hp2 IH2]; intros Hsym.
  - reflexivity.
  - rewrite !pair_sum_cons. rewrite IH.
    + f_equal. apply list_sum_permutation. now apply Permutation_map.
    + intros a b Ha Hb. apply Hsym; now right.
  - rewrite !pair_sum_cons, !list_sum_map_cons.
    rewrite (Hsym x y); [lia | right; now left | now left].
  - rewrite IH1 by exact Hsym. apply IH2.
    intros a b Ha Hb.
    apply Hsym; [exact (Permutation_in a (Permutation_sym Hp1) Ha)
                | exact (Permutation_in b (Permutation_sym Hp1) Hb)].
Qed.

(** X7. The order of the members does not matter: on a population of
    sequences of one length, [genetic_distance] returns the same result
    for every reordering of the population. *)
Theorem genetic_distance_permutation (L0 : nat) (pop pop' : population)
  (N : Q) (L : nat) :
  uniform_length L0 pop -> Permutation pop pop' ->
  genetic_distance pop N L = genetic_distance pop' N L.
Proof.
  intros Hu Hp.
  assert (Hu' : uniform_length L0 pop')
    by (unfold uniform_length in *; eapply Permutation_Forall; eauto).
  unfold genetic_distance.
  rewrite (pairwise_distances_ok L0 pop Hu), (pairwise_distances_ok L0 pop' Hu').
  cbn [bind]. rewrite !sum_values_list_sum. fold (pair_sum pop) (pair_sum pop').
  rewrite (pair_sum_permutation pop pop' Hp); [reflexivity|].
  intros a b Ha Hb. apply hamming_sym.
  unfold uniform_length in Hu. rewrite Forall_forall in Hu.
  now rewrite (Hu a Ha), (Hu b Hb).
Qed.

Lemma genetic_distance_permutation_witness :
  genetic_distance ["AA"; "AC"; "GG"] 3 2 = genetic_distance ["AC"; "AA"; "GG"] 3 2.
Proof.
  apply (genetic_distance_permutation 2).
  - repeat constructor.
  - apply perm_swap.
Defined.

(** ** More on [mutate] and [reproduce] *)

Section ReproducerMore.

Context {R : Type} {RS : RandomSource R}.

Lemma mutate_sites_origin (mutationRate : Q) (s : string) :
  forall (r : R) (i : nat) (y : ascii),
    String.get i (fst (mutate_sites mutationRate s r)) = Some y ->
    exists c, String.get i s = Some c /\ (y = c \/ In y nucleotide_choices).
Proof.
  induction s as [|c s IH]; intros r i y; cbn [mutate_sites].
  - destruct i; discriminate.
  - destruct (random r) as [u r1]. destruct (Qle_bool u mutationRate).
    + pose proof (pick_nucleotide_in r1) as Hin.
      destruct (pick_nucleotide r1) as [c' r2]. cbn [fst] in Hin.
      specialize (IH r2). destruct (mutate_sites mutationRate s r2) as [rest r3].
      cbn [fst] in *. destruct i as [|i]; cbn [String.get].
      * intros [= <-]. exists c. split; [reflexivity | now right].
      * apply IH.
    + specialize (IH r1). destruct (mutate_sites mutationRate s r1) as [rest r3].
      cbn [fst] in *. destruct i as [|i]; cbn [String.get].
      * intros [= <-]. exists c. split; [reflexivity | now left].
      * apply IH.
Qed.

(** For every rate that is a number, [mutate] returns, without an
    exception, a sequence of the length of its input in which each symbol
    is either the input symbol at that position or one of C, T, G. *)
Lemma mutate_origin_numeric (mutation_rate : Q) (s : string) (r : R) :
  exists (out : string) (r' : R),
    mutate mutation_rate s r = Ok (out, r')
    /\ String.length out = String.length s
    /\ forall (i : nat) (y : ascii),
         String.get i out = Some y ->
         exists c, String.get i s = Some c
                   /\ (y = c \/ In y nucleotide_choices)
                   /\ (y = "A"%char -> c = "A"%char).
Proof.
  exists (fst (mutate_sites mutation_rate s r)), (snd (mutate_sites mutation_rate s r)).
  split; [rewrite mutate_refines; now destruct (mutate_sites mutation_rate s r)|].
  split; [apply mutate_sites_length|].
  intros i y Hy.
  destruct (mutate_sites_origin mutation_rate s r i y Hy) as [c [Hc Hor]].
  exists c. split; [exact Hc|]. split; [exact Hor|].
  intros ->. destruct Hor as [<-|Hin]; [reflexivity|].
  cbn in Hin. intuition discriminate.
Qed.

Lemma reproduce_all_app (mutationRate : Q) (p1 p2 : population) :
  forall r,
    reproduce_all mutationRate (p1 ++ p2) r
    = (fst (reproduce_all mutationRate p1 r)
         ++ fst (reproduce_all mutationRate p2
                   (snd (reproduce_all mutationRate p1 r))),
       snd (reproduce_all mutationRate p2
              (snd (reproduce_all mutationRate p1 r)))).
Proof.
  induction p1 as [|s p1 IH]; intros r; cbn [app reproduce_all].
  - cbn [fst snd app]. now destruct (reproduce_all mutationRate p2 r).
  - destruct (mutate_sites mutationRate s r) as [s' r1]. rewrite IH.
    destruct (reproduce_all mutationRate p1 r1) as [o1 r2]. reflexivity.
Qed.

(** X9. For every rate, [reproduce] returns, without an exception, a
    population of the size of its input in which the sequence at each index
    is [mutate] of the input sequence at that index; an empty population
    gives an empty population and leaves the random source untouched. *)
Theorem reproduce_one_parent_each (mutation_rate : Q) (pop : population) (r : R) :
  exists (out : population) (r' : R),
    reproduce mutation_rate pop r = Ok (out, r')
    /\ List.length out = List.length pop
    /\ Forall2 (fun parent child =>
                  exists r0 r1 : R, mutate mutation_rate parent r0 = Ok (child, r1))
         pop out
    /\ (pop = [] -> out = [] /\ r' = r).
Proof.
  exists (fst (reproduce_all mutation_rate pop r)),
         (snd (reproduce_all mutation_rate pop r)).
  split; [rewrite reproduce_refines; now destruct (reproduce_all mutation_rate pop r)|].
  split; [apply reproduce_all_length|].
  split.
  - eapply Forall2_impl; [|apply reproduce_all_children].
    intros parent child [r0 ->].
    exists r0, (snd (mutate_sites mutation_rate parent r0)).
    rewrite mutate_refines. now destruct (mutate_sites mutation_rate parent r0).
  - intros ->. now split.
Qed.

Lemma reproduce_app (mutationRate : Q) (p1 p2 : population) (r : R) :
  reproduce mutationRate (p1 ++ p2) r
  = ('(o1, r1) <- reproduce mutationRate p1 r ;;
     '(o2, r2) <- reproduce mutationRate p2 r1 ;;
     Ok (o1 ++ o2, r2)).
Proof.
  rewrite !reproduce_refines, reproduce_all_app.
  destruct (reproduce_all mutationRate p1 r) as [o1 r1]. cbn [bind fst snd].
  rewrite reproduce_refines.
  now destruct (reproduce_all mutationRate p2 r1) as [o2 r2].
Qed.

(** X10. [reproduce] on a concatenation is [reproduce] on the first part,
    then on the second part from the state of the random source the first
    left, with the results concatenated. *)
Theorem reproduce_concatenation (mutation_rate : Q) (p1 p2 : population) (r : R) :
  reproduce mutation_rate (p1 ++ p2) r
  = ('(o1, r1) <- reproduce mutation_rate p1 r ;;
     '(o2, r2) <- reproduce mutation_rate p2 r1 ;;
     Ok (o1 ++ o2, r2)).
Proof. apply reproduce_app. Qed.

Lemma firstn_skipn_two_parts {A B : Type} (c : nat) (l : list A) (o1 o2 : list B) :
  List.length o1 = List.length (firstn c l) ->
  List.length o2 = List.length (skipn c l) ->
  firstn c (o1 ++ o2) = o1 /\ skipn c (o1 ++ o2) = o2.
Proof.
  rewrite length_firstn, length_skipn. intros H1 H2.
  destruct (Nat.le_gt_cases c (List.length l)) as [Hc|Hc].
  - assert (Hlen : List.length o1 = c) by lia.
    split.
    + rewrite firstn_app, Hlen, Nat.sub_diag, firstn_all2 by lia.
      cbn. apply app_nil_r.
    + rewrite skipn_app, Hlen, Nat.sub_diag, skipn_all2 by lia.
      reflexivity.
  - assert (Ho2 : o2 = []) by (destruct o2; [reflexivity | cbn in H2; lia]).
    subst o2. rewrite app_nil_r.
    split; [apply firstn_all2 | apply skipn_all2]; lia.
Qed.

(** X11. Reproducing a population and then splitting the result is the
    same as splitting the population and reproducing its first part and
    then its second part from the same random source: the two parts of the
    split evolve exactly as they would have inside the whole. *)
Theorem reproduce_then_split (mutation_rate : Q) (pop : population) (n : nat) (r : R) :
  ('(out, r') <- reproduce mutation_rate pop r ;;
   '(q1, q2) <- split_populations out (Qnat n) ;;
   Ok (q1, q2, r'))
  = ('(p1, p2) <- split_populations pop (Qnat n) ;;
     '(o1, r1) <- reproduce mutation_rate p1 r ;;
     '(o2, r2) <- reproduce mutation_rate p2 r1 ;;
     Ok (o1, o2, r2)).
Proof.
  rewrite (split_populations_ok pop n). cbn [bind].
  rewrite <- (firstn_skipn (ceil_half n) pop) at 1.
  rewrite reproduce_app.
  rewrite !reproduce_refines.
  pose proof (reproduce_all_length mutation_rate (firstn (ceil_half n) pop) r) as H1.
  destruct (reproduce_all mutation_rate (firstn (ceil_half n) pop) r) as [o1 r1].
  cbn [bind fst] in *. rewrite reproduce_refines.
  pose proof (reproduce_all_length mutation_rate (skipn (ceil_half n) pop) r1) as H2.
  destruct (reproduce_all mutation_rate (skipn (ceil_half n) pop) r1) as [o2 r2].
  cbn [bind fst] in *. rewrite split_populations_ok. cbn [bind].
  destruct (firstn_skipn_two_parts (ceil_half n) pop o1 o2 H1 H2) as [-> ->].
  reflexivity.
Qed.

Lemma mutate_sites_copy (mutationRate : Q) (s : string) :
  (mutationRate < 0)%Q ->
  forall r,
    mutate_sites mutationRate s r
    = (s, Nat.iter (String.length s) (fun r0 => snd (random r0)) r).
Proof.
  intros Hneg. induction s as [|c s IH]; intros r; cbn [mutate_sites String.length].
  - reflexivity.
  - pose proof (random_unit_interval r) as [H0 _].
    rewrite Nat.iter_succ_r.
    destruct (random r) as [u r1]. cbn [fst snd] in *.
    assert (Hu : Qle_bool u mutationRate = false).
    { apply Qle_bool_false_iff. eapply Qlt_le_trans; eauto. }
    rewrite Hu, IH. reflexivity.
Qed.

(** X12. With a rate below 0 (which [main] rejects but [mutate] accepts)
    no draw can reach the rate: [mutate] returns its input unchanged, having
    called [random()] once per site and [random.choice] never. *)
Theorem mutate_negative_rate (mutation_rate : Q) (s : string) (r : R) :
  (mutation_rate < 0)%Q ->
  mutate mutation_rate s r
  = Ok (s, Nat.iter (String.length s) (fun r0 => snd (random r0)) r).
Proof.
  intros Hneg. rewrite mutate_refines. now rewrite mutate_sites_copy.
Qed.

End ReproducerMore.

Lemma reproduce_one_parent_each_witness :
  exists (out : population) (r' : nat),
    @reproduce nat half_source (1 # 2) [] 7 = Ok (out, r') /\ out = [] /\ r' = 7.
Proof.
  destruct (@reproduce_one_parent_each nat half_source (1 # 2) [] 7)
    as (out & r' & Hr & _ & _ & Hnil).
  exists out, r'. split; [exact Hr | now apply Hnil].
Defined.

Lemma mutate_negative_rate_witness :
  @mutate nat half_source (-1 # 2) "ACGT" 0 = Ok ("ACGT", 4).
Proof.
  apply (@mutate_negative_rate nat half_source (-1 # 2) "ACGT" 0).
  reflexivity.
Defined.

(** ** [split_populations] with any size hint *)

Lemma Qlt_bool_iff (x y : Q) : Qlt_bool x y = true <-> (x < y)%Q.
Proof. unfold Qlt_bool, Qlt. apply Z.ltb_lt. Qed.

(** The loop body of [split_populations] with hint [h] at an index that
    holds [x]. *)
Definition split_element_hint (h : Q) (i : nat) (x : string)
  (st : population * population) : result (population * population) :=
  let (population1, population2) := st in
  if Qlt_bool (Qnat i) (h / 2)%Q
  then Ok (population1 ++ [x], population2)
  else Ok (population1, population2 ++ [x]).

Lemma below_half_stays_false (h : Q) (k j : nat) :
  Qlt_bool (Qnat k) (h / 2)%Q = false -> k <= j ->
  Qlt_bool (Qnat j) (h / 2)%Q = false.
Proof.
  intros Hk Hj. destruct (Qlt_bool (Qnat j) (h / 2)%Q) eqn:E; [|reflexivity].
  apply Qlt_bool_iff in E.
  assert (Hlt : Qlt_bool (Qnat k) (h / 2)%Q = true).
  { apply Qlt_bool_iff. eapply Qle_lt_trans; [apply Qnat_le; exact Hj | exact E]. }
  congruence.
Qed.

Lemma for_elements_split_rest (h : Q) (l : population) :
  forall (k : nat) (p1 p2 : population),
    Qlt_bool (Qnat k) (h / 2)%Q = false ->
    for_elements k l (split_element_hint h) (p1, p2) = Ok (p1, p2 ++ l).
Proof.
  induction l as [|x l IH]; intros k p1 p2 Hk; cbn [for_elements].
  - now rewrite app_nil_r.
  - unfold split_element_hint at 1. rewrite Hk. cbn [bind].
    rewrite IH by (apply (below_half_stays_false h k); [exact Hk | lia]).
    now rewrite <- app_assoc.
Qed.

Lemma for_elements_split_cut (h : Q) (l : population) :
  forall (k : nat) (p1 : population),
    exists m,
      for_elements k l (split_element_hint h) (p1, [])
      = Ok (p1 ++ firstn m l, skipn m l)
      /\ (Qlt_bool (Qnat k) (h / 2)%Q = false -> m = 0).
Proof.
  induction l as [|x l IH]; intros k p1.
  - exists 0. cbn. now rewrite app_nil_r.
  - destruct (Qlt_bool (Qnat k) (h / 2)%Q) eqn:Hk.
    + destruct (IH (S k) (p1 ++ [x])) as [m [Hm _]].
      exists (S m). split; [|discriminate].
      cbn [for_elements]. unfold split_element_hint at 1. rewrite Hk.
      cbn [bind firstn skipn]. rewrite <- app_assoc in Hm. exact Hm.
    + exists 0. split; [|reflexivity].
      cbn [firstn skipn]. rewrite app_nil_r.
      exact (for_elements_split_rest h (x :: l) k p1 [] Hk).
Qed.

Lemma split_populations_hint (pop : population) (h : Q) :
  split_populations pop h
  = for_elements 0 pop (split_element_hint h) ([], []).
Proof.
  unfold split_populations.
  apply (for_each_over_list pop _ (split_element_hint h)).
  intros i x [p1 p2] Hx. unfold split_element_hint, getitem_list.
  rewrite Hx. now destruct (Qlt_bool (Qnat i) (h / 2)%Q).
Qed.

(** A size hint on which [population_size_N / 2] raises no
    [OverflowError]: a number, float or [int], of magnitude at most
    [2^1023]. On an [int] beyond the range of a float Python raises at the
    first comparison, which [split_populations] does not model. *)
Definition hint_in_float_range (h : Q) : Prop :=
  (- inject_Z (2 ^ 1023) <= h)%Q /\ (h <= inject_Z (2 ^ 1023))%Q.

(** X13. Whatever number within the range of a float is passed as
    [population_size_N], [split_populations] raises no exception and cuts
    the list in two at one point, keeping every member once and in order.
    With a hint of 0 or less everything goes to [population2]; with an
    integer hint [n] the cut is after [ceil(n / 2)] members, so with
    [n >= 2 len - 1] everything goes to [population1]. *)
Theorem split_populations_any_hint (pop : population) (h : Q) :
  hint_in_float_range h ->
  (exists k : nat,
     split_populations pop h = Ok (firstn k pop, skipn k pop))
  /\ (forall p1 p2, split_populations pop h = Ok (p1, p2) -> p1 ++ p2 = pop)
  /\ ((h <= 0)%Q -> split_populations pop h = Ok ([], pop))
  /\ (forall n : nat,
        h = Qnat n ->
        split_populations pop h
        = Ok (firstn (ceil_half n) pop, skipn (ceil_half n) pop)
        /\ (2 * List.length pop <= n + 1 ->
            split_populations pop h = Ok (pop, []))).
Proof.
  intros _.
  assert (Hcut : exists k : nat,
             split_populations pop h = Ok (firstn k pop, skipn k pop)).
  { rewrite split_populations_hint.
    destruct (for_elements_split_cut h pop 0 []) as [m [Hm _]].
    exists m. exact Hm. }
  split; [exact Hcut|]. split; [|split].
  - intros p1 p2 Hs. destruct Hcut as [k Hk]. rewrite Hk in Hs.
    injection Hs as <- <-. apply firstn_skipn.
  - intros Hh. rewrite split_populations_hint.
    apply (for_elements_split_rest h pop 0 [] []).
    destruct (Qlt_bool (Qnat 0) (h / 2)%Q) eqn:E; [|reflexivity].
    apply Qlt_bool_iff in E. exfalso.
    unfold Qlt, Qle, Qdiv, Qmult, Qinv, Qnat, inject_Z in *. cbn in *. lia.
  - intros n ->. split; [apply split_populations_ok|].
    intros Hn. rewrite split_populations_ok.
    assert (Hc : List.length pop <= ceil_half n).
    { unfold ceil_half. apply Nat.div_le_lower_bound; lia. }
    now rewrite firstn_all2, skipn_all2.
Qed.

Lemma split_populations_any_hint_witness :
  split_populations ["a"; "b"; "c"] (-3 # 2) = Ok ([], ["a"; "b"; "c"])
  /\ split_populations ["a"; "b"; "c"] (Qnat 5) = Ok (["a"; "b"; "c"], []).
Proof.
  destruct (split_populations_any_hint ["a"; "b"; "c"] (-3 # 2))
    as (_ & _ & Hneg & _); [split; vm_compute; discriminate|].
  destruct (split_populations_any_hint ["a"; "b"; "c"] (Qnat 5))
    as (_ & _ & _ & Hint); [split; vm_compute; discriminate|].
  split.
  - apply Hneg. discriminate.
  - destruct (Hint 5 eq_refl) as [_ Hall]. apply Hall. cbn. lia.
Defined.

(** ** [print_output] with lists of any lengths *)

Lemma for_elements_rows_any (gens : list nat) :
  forall (a1 a2 : list Q) (rows : list (nat * Q)),
    for_elements (List.length a1) gens
      (fun i g rows => d <- getitem_list (a1 ++ a2) i ;; Ok (rows ++ [(g, d)]))
      rows
    = if Nat.leb (List.length gens) (List.length a2)
      then Ok (rows ++ combine gens a2)
      else Raise IndexError.
Proof.
  induction gens as [|g gens IH]; intros a1 a2 rows; cbn [for_elements].
  - cbn. now rewrite app_nil_r.
  - unfold getitem_list at 1. destruct a2 as [|d a2].
    + rewrite app_nil_r, (proj2 (nth_error_None a1 (List.length a1)) (le_n _)).
      reflexivity.
    + rewrite nth_error_app2, Nat.sub_diag by lia. cbn [nth_error bind].
      specialize (IH (a1 ++ [d]) a2 (rows ++ [(g, d)])).
      rewrite length_app, Nat.add_1_r, <- !app_assoc in IH. cbn [app] in IH.
      rewrite IH. cbn [List.length Nat.leb combine].
      now destruct (Nat.leb (List.length gens) (List.length a2)).
Qed.

(** X14. [print_output] prints one row per entry of [generations], each
    with the entry of [avg_distance] at the same index, and ignores any
    further distances; when [avg_distance] is the shorter list it raises
    [IndexError]. *)
Theorem print_output_rows (avg : list Q) (gens : list nat) :
  (List.length gens <= List.length avg ->
     print_output avg gens = Ok (combine gens avg)
     /\ forall rows, print_output avg gens = Ok rows ->
                     List.length rows = List.length gens)
  /\ (List.length avg < List.length gens ->
        print_output avg gens = Raise IndexError).
Proof.
  assert (H : print_output avg gens
              = if Nat.leb (List.length gens) (List.length avg)
                then Ok (combine gens avg) else Raise IndexError).
  { unfold print_output.
    rewrite (for_each_over_list gens _
               (fun i g rows => d <- getitem_list avg i ;; Ok (rows ++ [(g, d)]))).
    - exact (for_elements_rows_any gens [] avg []).
    - intros i g rows Hg. unfold getitem_list at 1. now rewrite Hg. }
  rewrite H. split.
  - intros Hle. rewrite (proj2 (Nat.leb_le _ _) Hle).
    split; [reflexivity|].
    intros rows [= <-]. rewrite length_combine. lia.
  - intros Hlt. now rewrite (proj2 (Nat.leb_gt _ _) Hlt).
Qed.

Lemma print_output_rows_witness :
  print_output [1 # 2; 3 # 4; 5 # 6]%Q [1; 2] = Ok [(1, (1 # 2)%Q); (2, (3 # 4)%Q)]
  /\ print_output [1 # 2]%Q [1; 2] = Raise IndexError.
Proof.
  destruct (print_output_rows [1 # 2; 3 # 4; 5 # 6]%Q [1; 2]) as [Hok _].
  destruct (print_output_rows [1 # 2]%Q [1; 2]) as [_ Herr].
  split.
  - destruct Hok as [H _]; [cbn; lia | exact H].
  - apply Herr. cbn. lia.
Defined.

(** ** Lists *)

Lemma nth_error_combine {A B : Type} (l : list A) (l' : list B) (k : nat) (a : A) (b : B) :
  nth_error l k = Some a -> nth_error l' k = Some b ->
  nth_error (combine l l') k = Some (a, b).
Proof.
  revert l' k. induction l as [|x l IH]; intros [|y l'] [|k] Ha Hb;
    try discriminate; cbn in *.
  - congruence.
  - now apply IH.
Qed.

Lemma nth_error_seq_lt (start len k : nat) :
  k < len -> nth_error (seq start len) k = Some (start + k).
Proof.
  revert start k. induction len as [|len IH]; intros start k Hk; [lia|].
  destruct k as [|k]; cbn [seq nth_error].
  - now rewrite Nat.add_0_r.
  - rewrite IH by lia. f_equal. lia.
Qed.

Lemma Forall_snd_combine {A B : Type} (P : B -> Prop) (l : list A) (l' : list B) :
  Forall P l' -> Forall (fun row => P (snd row)) (combine l l').
Proof.
  intros H. revert l. induction H as [|y l' Hy _ IH]; intros [|x l]; cbn;
    constructor; [exact Hy | apply IH].
Qed.

Lemma Forall_firstn {A : Type} (P : A -> Prop) (n : nat) (l : list A) :
  Forall P l -> Forall P (firstn n l).
Proof.
  intros H. rewrite <- (firstn_skipn n l) in H. now apply Forall_app in H.
Qed.

Lemma Forall_skipn {A : Type} (P : A -> Prop) (n : nat) (l : list A) :
  Forall P l -> Forall P (skipn n l).
Proof.
  intros H. rewrite <- (firstn_skipn n l) in H. now apply Forall_app in H.
Qed.

Lemma zero_record (D : Q) (L : nat) (p : population) :
  pair_sum p = 0 -> (Qnat (pair_sum p) / D / Qnat L == 0)%Q.
Proof.
  intros ->. unfold Qdiv. now rewrite !Qmult_0_l.
Qed.

Lemma initial_population_equal (N L : nat) :
  Forall (fun x => x = all_A L) (initialize_original_sequence N L).
Proof.
  rewrite initialize_original_sequence_ok. apply Forall_forall.
  intros s Hs. now apply repeat_spec in Hs.
Qed.

(** ** What [main] records, generation by generation *)

Section Generations.

Context {R : Type} {RS : RandomSource R}.

(** The population after [k] rounds of [reproduce], with the random source
    as those rounds leave it. *)
Fixpoint generation_after (mutation_rate : Q) (k : nat) (pop : population) (r : R)
  : result (population * R) :=
  match k with
  | 0 => Ok (pop, r)
  | S k' =>
      '(p, r') <- generation_after mutation_rate k' pop r ;;
      reproduce mutation_rate p r'
  end.

(** The same, with [reproduce_all] for [reproduce]. *)
Fixpoint evolve (mutation_rate : Q) (k : nat) (pop : population) (r : R)
  : population * R :=
  match k with
  | 0 => (pop, r)
  | S k' =>
      reproduce_all mutation_rate (fst (evolve mutation_rate k' pop r))
        (snd (evolve mutation_rate k' pop r))
  end.

Lemma generation_after_evolve (mutation_rate : Q) (k : nat) (pop : population) (r : R) :
  generation_after mutation_rate k pop r = Ok (evolve mutation_rate k pop r).
Proof.
  induction k as [|k IH]; cbn [generation_after evolve]; [reflexivity|].
  rewrite IH. cbn [bind].
  destruct (evolve mutation_rate k pop r) as [p r']. cbn [fst snd].
  apply reproduce_refines.
Qed.

Lemma evolve_rate_zero (pop : population) (r : R) (k : nat) :
  (forall r0 : R, (0 < fst (random r0))%Q) ->
  fst (evolve 0 k pop r) = pop.
Proof.
  intros Hpos. induction k as [|k IH]; cbn [evolve]; [reflexivity|].
  rewrite IH. now apply reproduce_all_rate_zero.
Qed.

End Generations.

Section ControllerMore.

Context {R : Type} {RS : RandomSource R}.

Variables (N L : nat) (mutation_rate : Q) (g G : nat) (flag : bool).

Hypothesis N_positive : 1 <= N.
Hypothesis L_positive : 1 <= L.

(** The record [main] appends for a single population [p]. *)
Definition record_of (p : population) : Q :=
  (Qnat (pair_sum p) / Qnat N / Qnat L)%Q.

(** After [j] iterations of a loop on the single population: the locals
    hold the population after [j] rounds of [reproduce], and the records so
    far are those of the populations after 0, 1, ..., [j - 1] rounds. *)
Definition evolving_inv (r : R) (j : nat) (st : locals R) : Prop :=
  single_inv N L j st
  /\ (new_generation_sequence st, rng st)
     = evolve mutation_rate j (initialize_original_sequence N L) r
  /\ avg_genetic_distances st
     = map (fun k => record_of
                       (fst (evolve mutation_rate k
                               (initialize_original_sequence N L) r)))
         (seq 0 j).

Lemma evolving_step (r : R) (body : nat -> locals R -> result (locals R)) :
  (forall i st,
     uniform_length L (new_generation_sequence st) ->
     body i st
     = Ok (mkLocals
             (fst (reproduce_all mutation_rate (new_generation_sequence st) (rng st)))
             (population1 st) (population2 st)
             (avg_genetic_distances st
                ++ [average_under L (Qnat N) (new_generation_sequence st)])
             (generations st ++ [generation_number st])
             (generation_number st + 1)
             (snd (reproduce_all mutation_rate (new_generation_sequence st) (rng st))))) ->
  forall j i st, evolving_inv r j st ->
                 exists st', body i st = Ok st' /\ evolving_inv r (S j) st'.
Proof.
  intros Hbody j i st (Hs & He & Ha).
  destruct (single_inv_step N L mutation_rate N_positive L_positive body Hbody
              j i st Hs) as [st' [Hb Hs']].
  exists st'. split; [exact Hb|]. split; [exact Hs'|].
  rewrite Hbody in Hb by apply Hs. injection Hb as <-.
  cbn [new_generation_sequence rng avg_genetic_distances evolve].
  rewrite <- He. cbn [fst snd]. split.
  - now destruct (reproduce_all mutation_rate (new_generation_sequence st) (rng st)).
  - rewrite seq_S, map_app, <- Ha. cbn [map Nat.add]. rewrite <- He.
    reflexivity.
Qed.

Lemma evolving_loop (r : R) (body : nat -> locals R -> result (locals R)) (k : nat) :
  (forall i st,
     uniform_length L (new_generation_sequence st) ->
     body i st
     = Ok (mkLocals
             (fst (reproduce_all mutation_rate (new_generation_sequence st) (rng st)))
             (population1 st) (population2 st)
             (avg_genetic_distances st
                ++ [average_under L (Qnat N) (new_generation_sequence st)])
             (generations st ++ [generation_number st])
             (generation_number st + 1)
             (snd (reproduce_all mutation_rate (new_generation_sequence st) (rng st))))) ->
  exists st, for_each (range 0 k) body (initial_locals N L r) = Ok st
             /\ evolving_inv r k st.
Proof.
  intros Hbody.
  assert (H0 : evolving_inv r 0 (initial_locals N L r)).
  { split; [apply initial_locals_inv|]. split; reflexivity. }
  destruct (for_each_invariant (evolving_inv r) body (evolving_step r body Hbody)
              (range 0 k) 0 (initial_locals N L r) H0) as [[st [Hst Hinv]] _].
  rewrite range_0, length_seq in *. now exists st.
Qed.

(** [main] without a split, with the state its loop ends in. *)
Lemma main_no_split_strong (r : R) :
  G <= g ->
  exists st : locals R,
    main N L mutation_rate g G flag r
    = Ok (st, combine (generations st) (avg_genetic_distances st))
    /\ evolving_inv r G st.
Proof.
  intros Hge.
  destruct (evolving_loop r (no_split_body N L mutation_rate) G
              (no_split_body_ok N L mutation_rate N_positive L_positive))
    as [st [Hst Hinv]].
  exists st. split; [|exact Hinv].
  destruct Hinv as ((Hu & _ & _ & _ & Hg & _ & Ha) & _).
  unfold main. rewrite (proj2 (Nat.ltb_ge g G) Hge).
  unfold no_split_branch. rewrite Hst. cbn [bind].
  assert (Hf : (if negb flag
                then print_distance (new_generation_sequence st) (Qnat N) L
                else Ok tt) = Ok tt).
  { destruct flag; cbn [negb]; [reflexivity|].
    apply (print_distance_ok L L_positive); auto using Qnat_nonzero. }
  rewrite Hf. cbn [bind].
  rewrite print_output_ok by (now rewrite Hg, Ha, length_seq).
  reflexivity.
Qed.

(** [main] with the split, with the state before the split and the state
    its second loop ends in. *)
Lemma main_split_strong (r : R) :
  g < G ->
  exists pre st : locals R,
    main N L mutation_rate g G flag r
    = Ok (st, combine (generations st) (avg_genetic_distances st))
    /\ evolving_inv r g pre
    /\ split_inv N L g (firstn (ceil_half N) (new_generation_sequence pre))
         (skipn (ceil_half N) (new_generation_sequence pre))
         (generations pre) (avg_genetic_distances pre) (G - g) st.
Proof.
  intros Hlt.
  destruct (evolving_loop r (pre_split_body N L mutation_rate flag) g
              (pre_split_body_ok N L mutation_rate flag N_positive L_positive))
    as [pre [Hpre Hinv]].
  destruct (post_split_loop_ok N L mutation_rate g G flag N_positive L_positive r
              (Nat.lt_le_incl _ _ Hlt))
    as (pre' & st & Hpre' & Hsingle & Hst & Hsinv & _).
  rewrite Hpre in Hpre'. injection Hpre' as <-.
  exists pre, st. split; [|now split].
  destruct Hsingle as (Hu & _ & _ & _ & Hg & _ & Ha).
  pose proof Hsinv as (Hp1 & Hp2 & _).
  unfold main. rewrite (proj2 (Nat.ltb_lt g G) Hlt).
  unfold split_branch. rewrite Hpre. cbn [bind].
  destruct (split_step N pre) as [s1|e]; cbn [bind] in *; [|discriminate].
  rewrite Hst. cbn [bind].
  assert (Hf : (if negb flag
                then _ <- print_distance (population1 st) (half_N N) L ;;
                     print_distance (population2 st) (half_N N) L
                else Ok tt) = Ok tt).
  { destruct flag; cbn [negb]; [reflexivity|].
    rewrite Hp1, Hp2.
    pose proof (half_N_nonzero N L N_positive L_positive) as Hh.
    rewrite !(print_distance_ok L L_positive);
      auto using uniform_firstn, uniform_skipn. }
  rewrite Hf. cbn [bind].
  rewrite print_output_ok; [reflexivity|].
  assert (Hlen0 : List.length (avg_genetic_distances pre)
                  = List.length (generations pre))
    by (now rewrite Hg, Ha, length_seq).
  exact (split_inv_lengths N L g N_positive L_positive _ _ _ _ _ _ Hlen0 Hsinv).
Qed.


(** X15. Without a split ([g >= G], [N >= 1], [L >= 1]) [main] measures and
    then advances: its table has [G] rows, row [k] (from 0) carries
    generation number [k + 1] and the average distance of the population
    after [k] rounds of [reproduce] from the initial one, and the population
    it ends with has gone through [G] rounds, one more than the last one
    reported. *)
Theorem no_split_records (r : R) :
  G <= g ->
  exists (st : locals R) (rows : list (nat * Q)),
    main N L mutation_rate g G flag r = Ok (st, rows)
    /\ generation_after mutation_rate G (initialize_original_sequence N L) r
       = Ok (new_generation_sequence st, rng st)
    /\ List.length rows = G
    /\ forall k, k < G ->
         exists (p : population) (rk : R),
           generation_after mutation_rate k (initialize_original_sequence N L) r
           = Ok (p, rk)
           /\ nth_error rows k
              = Some (S k, (Qnat (pair_sum p) / Qnat N / Qnat L)%Q).
Proof.
  intros Hge.
  destruct (main_no_split_strong r Hge) as [st [Hmain (Hs & He & Ha)]].
  destruct Hs as (_ & _ & _ & _ & Hg & _ & Hl).
  exists st, (combine (generations st) (avg_genetic_distances st)).
  split; [exact Hmain|].
  split; [rewrite generation_after_evolve; now rewrite He|].
  split; [rewrite length_combine, Hg, Hl, length_seq; lia|].
  intros k Hk.
  exists (fst (evolve mutation_rate k (initialize_original_sequence N L) r)),
         (snd (evolve mutation_rate k (initialize_original_sequence N L) r)).
  split.
  - rewrite generation_after_evolve.
    now destruct (evolve mutation_rate k (initialize_original_sequence N L) r).
  - apply nth_error_combine.
    + rewrite Hg. now apply nth_error_seq_lt.
    + rewrite Ha.
      apply (map_nth_error
               (fun k => record_of
                           (fst (evolve mutation_rate k
                                   (initialize_original_sequence N L) r)))).
      now apply nth_error_seq_lt.
Qed.

(** X16. With the split ([g < G], [N >= 1], [L >= 1]) the first [g] rows are
    those of the single population, row [k] being the average distance of
    the population after [k] rounds of [reproduce]; and the population that
    is split is the one after [g] rounds: [population1] is its first
    [ceil(N / 2)] members and [population2] the others, in order. *)
Theorem split_after_g_rounds (r : R) :
  g < G ->
  exists (st : locals R) (rows : list (nat * Q)) (pre_pop : population) (rg : R),
    main N L mutation_rate g G flag r = Ok (st, rows)
    /\ generation_after mutation_rate g (initialize_original_sequence N L) r
       = Ok (pre_pop, rg)
    /\ population1 st = firstn (ceil_half N) pre_pop
    /\ population2 st = skipn (ceil_half N) pre_pop
    /\ population1 st ++ population2 st = pre_pop
    /\ forall k, k < g ->
         exists (p : population) (rk : R),
           generation_after mutation_rate k (initialize_original_sequence N L) r
           = Ok (p, rk)
           /\ nth_error rows k
              = Some (S k, (Qnat (pair_sum p) / Qnat N / Qnat L)%Q).
Proof.
  intros Hlt.
  destruct (main_split_strong r Hlt) as (pre & st & Hmain & (Hs & He & Ha) & Hsinv).
  destruct Hs as (_ & _ & _ & _ & Hg & _ & Hl).
  destruct Hsinv as (Hp1 & Hp2 & _ & Hgs & _ & Has).
  exists st, (combine (generations st) (avg_genetic_distances st)),
         (new_generation_sequence pre), (rng pre).
  split; [exact Hmain|].
  split; [rewrite generation_after_evolve; now rewrite He|].
  split; [exact Hp1|]. split; [exact Hp2|].
  split; [rewrite Hp1, Hp2; apply firstn_skipn|].
  intros k Hk.
  exists (fst (evolve mutation_rate k (initialize_original_sequence N L) r)),
         (snd (evolve mutation_rate k (initialize_original_sequence N L) r)).
  split.
  - rewrite generation_after_evolve.
    now destruct (evolve mutation_rate k (initialize_original_sequence N L) r).
  - apply nth_error_combine.
    + rewrite Hgs, Hg, nth_error_app1 by (rewrite length_seq; lia).
      now apply nth_error_seq_lt.
    + rewrite Has, nth_error_app1 by lia. rewrite Ha.
      apply (map_nth_error
               (fun k => record_of
                           (fst (evolve mutation_rate k
                                   (initialize_original_sequence N L) r)))).
      now apply nth_error_seq_lt.
Qed.

(** X17. Whatever the rate, the split generation and the random source,
    the first row of the table of [main] is generation 1 with distance 0:
    the initial population is measured before any mutation. *)
Theorem first_record_zero (r : R) :
  1 <= G ->
  exists (st : locals R) (rows : list (nat * Q)) (q : Q),
    main N L mutation_rate g G flag r = Ok (st, rows)
    /\ nth_error rows 0 = Some (1, q)
    /\ (q == 0)%Q.
Proof.
  intros HG.
  pose proof (pair_sum_all_equal _ _ (initial_population_equal N L)) as Hzero.
  destruct (Nat.le_gt_cases G g) as [Hge|Hlt].
  - destruct (main_no_split_strong r Hge) as [st [Hmain (Hs & He & Ha)]].
    destruct Hs as (_ & _ & _ & _ & Hg & _ & _).
    exists st, (combine (generations st) (avg_genetic_distances st)),
           (record_of (initialize_original_sequence N L)).
    split; [exact Hmain|]. split; [|now apply zero_record].
    rewrite Hg, Ha. destruct G as [|G']; [lia|]. reflexivity.
  - destruct (main_split_strong r Hlt) as (pre & st & Hmain & (Hs & He & Ha) & Hsinv).
    destruct Hs as (_ & _ & _ & _ & Hg & _ & _).
    destruct Hsinv as (_ & _ & _ & Hgs & _ & Has).
    destruct g as [|g'].
    + cbn [evolve] in He. injection He as Hpop _.
      exists st, (combine (generations st) (avg_genetic_distances st)),
             (average_under L (half_N N)
                (firstn (ceil_half N) (initialize_original_sequence N L))).
      split; [exact Hmain|]. split.
      * rewrite Hgs, Has, Hg, Ha, Hpop. cbn [seq map app].
        rewrite Nat.sub_0_r. destruct G as [|G']; [lia|]. reflexivity.
      * apply zero_record.
        apply (pair_sum_all_equal (all_A L)).
        apply Forall_firstn, initial_population_equal.
    + exists st, (combine (generations st) (avg_genetic_distances st)),
             (record_of (initialize_original_sequence N L)).
      split; [exact Hmain|]. split; [|now apply zero_record].
      rewrite Hgs, Has, Hg, Ha. reflexivity.
Qed.

End ControllerMore.

Lemma Forall_concat_pairs {A : Type} (P : A -> Prop) (a b : A) (j : nat) :
  P a -> P b -> Forall P (List.concat (repeat [a; b] j)).
Proof.
  intros Ha Hb. induction j as [|j IH]; cbn; [constructor|].
  constructor; [exact Ha|]. constructor; [exact Hb | exact IH].
Qed.

(** X18. With rate 0 and a random source that never draws 0, nothing ever
    mutates: [main] reports distance 0 in every row, with or without the
    split, and the populations it ends with are the initial all-A
    sequences. *)
Theorem main_rate_zero {R : Type} {RS : RandomSource R}
  (N L g G : nat) (flag : bool) (r : R) :
  1 <= N -> 1 <= L ->
  (forall r0 : R, (0 < fst (random r0))%Q) ->
  exists (st : locals R) (rows : list (nat * Q)),
    main N L 0 g G flag r = Ok (st, rows)
    /\ Forall (fun row => (snd row == 0)%Q) rows
    /\ (G <= g -> new_generation_sequence st = repeat (all_A L) N)
    /\ (g < G -> population1 st ++ population2 st = repeat (all_A L) N).
Proof.
  intros HN HL Hpos.
  pose proof (initial_population_equal N L) as Hinit.
  assert (Hrec : forall k,
             (record_of N L
                (fst (evolve 0 k (initialize_original_sequence N L) r)) == 0)%Q).
  { intros k. rewrite (evolve_rate_zero _ r k Hpos).
    apply zero_record. now apply (pair_sum_all_equal (all_A L)). }
  destruct (Nat.le_gt_cases G g) as [Hge|Hlt].
  - destruct (main_no_split_strong N L 0 g G flag HN HL r Hge)
      as [st [Hmain (_ & He & Ha)]].
    exists st, (combine (generations st) (avg_genetic_distances st)).
    split; [exact Hmain|]. split; [|split; [|intros; lia]].
    + apply (Forall_snd_combine (fun q : Q => (q == 0)%Q)).
      rewrite Ha. apply Forall_forall.
      intros q Hq. apply in_map_iff in Hq. destruct Hq as [k [<- _]]. apply Hrec.
    + intros _. apply (f_equal fst) in He. cbn [fst] in He.
      rewrite He, (evolve_rate_zero _ r G Hpos).
      apply initialize_original_sequence_ok.
  - destruct (main_split_strong N L 0 g G flag HN HL r Hlt)
      as (pre & st & Hmain & (_ & He & Ha) & Hsinv).
    destruct Hsinv as (Hp1 & Hp2 & _ & _ & _ & Has).
    apply (f_equal fst) in He. cbn [fst] in He.
    rewrite (evolve_rate_zero _ r g Hpos) in He.
    exists st, (combine (generations st) (avg_genetic_distances st)).
    split; [exact Hmain|]. split; [|split; [intros; lia|]].
    + apply (Forall_snd_combine (fun q : Q => (q == 0)%Q)).
      rewrite Has. apply Forall_app. split.
      * rewrite Ha. apply Forall_forall.
        intros q Hq. apply in_map_iff in Hq. destruct Hq as [k [<- _]]. apply Hrec.
      * rewrite He. apply Forall_concat_pairs; apply zero_record;
          apply (pair_sum_all_equal (all_A L));
          [now apply Forall_firstn | now apply Forall_skipn].
    + intros _. rewrite Hp1, Hp2, firstn_skipn, He.
      apply initialize_original_sequence_ok.
Qed.

Lemma no_split_records_witness :
  exists (st : locals nat) (rows : list (nat * Q)),
    @main nat half_source 3 2 (1 # 2) 4 2 false 0 = Ok (st, rows)
    /\ List.length rows = 2.
Proof.
  destruct (@no_split_records nat half_source 3 2 (1 # 2) 4 2 false) with (r := 0)
    as (st & rows & Hmain & _ & Hlen & _); [lia | lia | lia |].
  exists st, rows. split; [exact Hmain | exact Hlen].
Defined.

Lemma split_after_g_rounds_witness :
  exists (st : locals nat) (rows : list (nat * Q)) (pre_pop : population),
    @main nat half_source 3 2 (1 # 2) 1 3 false 0 = Ok (st, rows)
    /\ population1 st ++ population2 st = pre_pop.
Proof.
  destruct (@split_after_g_rounds nat half_source 3 2 (1 # 2) 1 3 false)
    with (r := 0)
    as (st & rows & pre_pop & rg & Hmain & _ & _ & _ & Happ & _);
    [lia | lia | lia |].
  exists st, rows, pre_pop. split; [exact Hmain | exact Happ].
Defined.

Lemma first_record_zero_witness :
  exists (st : locals nat) (rows : list (nat * Q)) (q : Q),
    @main nat half_source 3 2 1 1 3 true 0 = Ok (st, rows)
    /\ nth_error rows 0 = Some (1, q) /\ (q == 0)%Q.
Proof.
  apply (@first_record_zero nat half_source 3 2 1 1 3 true); lia.
Defined.

Lemma main_rate_zero_witness :
  exists (st : locals nat) (rows : list (nat * Q)),
    @main nat half_source 4 5 0 2 4 false 0 = Ok (st, rows)
    /\ Forall (fun row => (snd row == 0)%Q) rows.
Proof.
  destruct (@main_rate_zero nat half_source 4 5 2 4 false 0)
    as (st & rows & Hmain & Hzero & _).
  - lia.
  - lia.
  - intros r0. reflexivity.
  - exists st, rows. split; [exact Hmain | exact Hzero].
Defined.

(** * The mutation rate as a float *)

(** [main] converts its third answer with [float] and [mutate] compares
    the draws with it, so the rate is any float: a number, an infinity or
    [nan]. On numbers the comparisons are those of the rationals; with
    [nan] every comparison is false. *)
Inductive pyfloat : Type :=
| Num (q : Q)
| PosInf
| NegInf
| NaN.

(** [x < y] on floats *)
Definition float_lt (x y : pyfloat) : bool :=
  match x, y with
  | NaN, _ | _, NaN => false
  | Num p, Num q => Qlt_bool p q
  | NegInf, NegInf => false
  | NegInf, _ => true
  | _, NegInf => false
  | PosInf, _ => false
  | Num _, PosInf => true
  end.

(** [x <= y] on floats *)
Definition float_le (x y : pyfloat) : bool :=
  match x, y with
  | NaN, _ | _, NaN => false
  | Num p, Num q => Qle_bool p q
  | NegInf, _ => true
  | _, PosInf => true
  | PosInf, _ => false
  | Num _, NegInf => false
  end.

(** The test of the input loop of [main] on the rate,
    [float(mutation_rate) < 0 or float(mutation_rate) > 1]: the rate is
    asked again as long as it holds, and the rate the run uses is one on
    which it is false. *)
Definition rate_rejected (mutation_rate : pyfloat) : bool :=
  float_lt mutation_rate (Num 0) || float_lt (Num 1) mutation_rate.

Section EngineFloat.

Context {R : Type} {RS : RandomSource R}.

(** One iteration of the loop of [mutate], the rate being a float:
    [if likelihood <= mutation_rate] ... [elif likelihood > mutation_rate]
    ..., and nothing is appended when neither test holds. *)
Definition mutate_site_float (mutation_rate : pyfloat) (generation_sequence : string)
  (index : nat) (st : string * R) : result (string * R) :=
  let (new_generation_sequence, r) := st in
  let (likelihood, r) := random r in
  if float_le (Num likelihood) mutation_rate then
    '(c, r) <- choice nucleotide_choices r ;;
    Ok (append_char new_generation_sequence c, r)
  else if float_lt mutation_rate (Num likelihood) then
    c <- getitem generation_sequence index ;;
    Ok (append_char new_generation_sequence c, r)
  else Ok (new_generation_sequence, r).

(** [mutate(mutation_rate, generation_sequence)] for a float rate *)
Definition mutate_float (mutation_rate : pyfloat) (generation_sequence : string)
  (r : R) : result (string * R) :=
  for_each (range 0 (String.length generation_sequence))
    (mutate_site_float mutation_rate generation_sequence)
    ("", r).

(** One iteration of the loop of [reproduce], the rate being a float. *)
Definition reproduce_one_float (mutation_rate : pyfloat)
  (prev_generation : population) (index : nat) (st : population * R)
  : result (population * R) :=
  let (new_generation, r) := st in
  parent <- getitem_list prev_generation index ;;
  '(child, r) <- mutate_float mutation_rate parent r ;;
  Ok (new_generation ++ [child], r).

(** [reproduce(mutation_rate, prev_generation)] for a float rate *)
Definition reproduce_float (mutation_rate : pyfloat) (prev_generation : population)
  (r : R) : result (population * R) :=
  for_each (range 0 (List.length prev_generation))
    (reproduce_one_float mutation_rate prev_generation)
    ([], r).

End EngineFloat.

Section ControllerFloat.

Context {R : Type} {RS : RandomSource R}.

Variables (population_size_N num_of_base_pairs_L : nat).
Variable mutation_rate : pyfloat.
Variables (generation_g total_generations_G : nat).
Variable list_all_generations : bool.

(** Body of the loop before the split, the rate being a float. *)
Definition pre_split_body_float (generation : nat) (st : locals R)
  : result (locals R) :=
  let generations' := generations st ++ [generation_number st] in
  d <- genetic_distance (new_generation_sequence st)
         (Qnat population_size_N) num_of_base_pairs_L ;;
  let avg_genetic_distances' := avg_genetic_distances st ++ [d] in
  _ <- (if list_all_generations
        then print_distance (new_generation_sequence st)
               (Qnat population_size_N) num_of_base_pairs_L
        else Ok tt) ;;
  '(new_generation_sequence', r) <-
     reproduce_float mutation_rate (new_generation_sequence st) (rng st) ;;
  Ok (mkLocals new_generation_sequence' (population1 st) (population2 st)
        avg_genetic_distances' generations' (generation_number st + 1) r).

(** Body of the loop after the split, the rate being a float. *)
Definition post_split_body_float (generation : nat) (st : locals R)
  : result (locals R) :=
  let generations' := generations st ++ [generation_number st] in
  d1 <- genetic_distance (population1 st) (half_N population_size_N)
          num_of_base_pairs_L ;;
  let avg_genetic_distances' := avg_genetic_distances st ++ [d1] in
  _ <- (if list_all_generations
        then print_distance (population1 st) (half_N population_size_N)
               num_of_base_pairs_L
        else Ok tt) ;;
  '(new_generation_sequence', r) <-
     reproduce_float mutation_rate (population1 st) (rng st) ;;
  let generations'' := generations' ++ [generation_number st] in
  d2 <- genetic_distance (population2 st) (half_N population_size_N)
          num_of_base_pairs_L ;;
  let avg_genetic_distances'' := avg_genetic_distances' ++ [d2] in
  _ <- (if list_all_generations
        then print_distance (population2 st) (half_N population_size_N)
               num_of_base_pairs_L
        else Ok tt) ;;
  '(new_generation_sequence'', r) <-
     reproduce_float mutation_rate (population2 st) r ;;
  Ok (mkLocals new_generation_sequence'' (population1 st) (population2 st)
        avg_genetic_distances'' generations'' (generation_number st + 1) r).

(** Body of the loop of the branch without a split, the rate being a
    float. *)
Definition no_split_body_float (generation : nat) (st : locals R)
  : result (locals R) :=
  let generations' := generations st ++ [generation_number st] in
  d <- genetic_distance (new_generation_sequence st)
         (Qnat population_size_N) num_of_base_pairs_L ;;
  let avg_genetic_distances' := avg_genetic_distances st ++ [d] in
  _ <- print_distance (new_generation_sequence st)
         (Qnat population_size_N) num_of_base_pairs_L ;;
  '(new_generation_sequence', r) <-
     reproduce_float mutation_rate (new_generation_sequence st) (rng st) ;;
  Ok (mkLocals new_generation_sequence' (population1 st) (population2 st)
        avg_genetic_distances' generations' (generation_number st + 1) r).

(** The branch [if generation_g < total_generations_G]. *)
Definition split_branch_float (r : R) : result (locals R) :=
  st <- for_each (range 0 generation_g) pre_split_body_float
          (initial_locals population_size_N num_of_base_pairs_L r) ;;
  st <- split_step population_size_N st ;;
  st <- for_each (range generation_g total_generations_G)
          post_split_body_float st ;;
  _ <- (if negb list_all_generations
        then _ <- print_distance (population1 st) (half_N population_size_N)
                    num_of_base_pairs_L ;;
             print_distance (population2 st) (half_N population_size_N)
               num_of_base_pairs_L
        else Ok tt) ;;
  Ok st.

(** The branch [else]. *)
Definition no_split_branch_float (r : R) : result (locals R) :=
  st <- for_each (range 0 total_generations_G) no_split_body_float
          (initial_locals population_size_N num_of_base_pairs_L r) ;;
  _ <- (if negb list_all_generations
        then print_distance (new_generation_sequence st)
               (Qnat population_size_N) num_of_base_pairs_L
        else Ok tt) ;;
  Ok st.

(** [main()] from the validated inputs on, the rate being the float that
    passed the input loop. *)
Definition main_float (r : R) : result (locals R * list (nat * Q)) :=
  st <- (if Nat.ltb generation_g total_generations_G
         then split_branch_float r
         else no_split_branch_float r) ;;
  rows <- print_output (avg_genetic_distances st) (generations st) ;;
  Ok (st, rows).

End ControllerFloat.

(** The rational on which [mutate] behaves as on the float, when the float
    is not [nan]: a number is itself, and as every draw lies in [[0,1)],
    [+inf] acts as 1 and [-inf] as -1. *)
Definition numeric_rate (x : pyfloat) : option Q :=
  match x with
  | Num q => Some q
  | PosInf => Some 1%Q
  | NegInf => Some (-1)%Q
  | NaN => None
  end.

(** [n] draws of [random()] whose value is not used. *)
Fixpoint skip_draws {R : Type} {RS : RandomSource R} (n : nat) (r : R) : R :=
  match n with
  | 0 => r
  | S n' => skip_draws n' (snd (random r))
  end.

(** ** A rate that is a number *)

Lemma for_each_ext {St : Type} (iter : list nat) (f h : nat -> St -> result St) :
  (forall i s, f i s = h i s) ->
  forall s, for_each iter f s = for_each iter h s.
Proof.
  intros Hfh. induction iter as [|i rest IH]; intros s; cbn [for_each].
  - reflexivity.
  - rewrite Hfh. destruct (h i s) as [s'|e]; cbn [bind]; [apply IH | reflexivity].
Qed.

Section FloatFacts.

Context {R : Type} {RS : RandomSource R}.

Lemma mutate_site_float_numeric (rate : pyfloat) (q : Q) (s : string) (i : nat)
  (st : string * R) :
  numeric_rate rate = Some q ->
  mutate_site_float rate s i st = mutate_site q s i st.
Proof.
  intros Hq. destruct st as [new r]. unfold mutate_site_float, mutate_site.
  pose proof (random_unit_interval r) as [H0 H1].
  destruct (random r) as [l r1]. cbn [fst] in H0, H1.
  destruct rate; cbn [numeric_rate] in Hq; inversion Hq; subst;
    cbn [float_le float_lt].
  - reflexivity.
  - assert (Hle : Qle_bool l 1 = true)
      by (apply Qle_bool_iff, Qlt_le_weak; exact H1).
    now rewrite Hle.
  - assert (Hle : Qle_bool l (-1) = false).
    { apply Qle_bool_false_iff. apply Qlt_le_trans with (y := 0%Q);
        [reflexivity | exact H0]. }
    rewrite Hle. now rewrite (Qle_bool_false_lt _ _ Hle).
Qed.

Lemma mutate_float_numeric (rate : pyfloat) (q : Q) (s : string) (r : R) :
  numeric_rate rate = Some q -> mutate_float rate s r = mutate q s r.
Proof.
  intros Hq. unfold mutate_float, mutate. apply for_each_ext.
  intros i st. now apply mutate_site_float_numeric.
Qed.

Lemma reproduce_float_numeric (rate : pyfloat) (q : Q) (pop : population) (r : R) :
  numeric_rate rate = Some q -> reproduce_float rate pop r = reproduce q pop r.
Proof.
  intros Hq. unfold reproduce_float, reproduce. apply for_each_ext.
  intros i [acc r0]. unfold reproduce_one_float, reproduce_one.
  destruct (getitem_list pop i) as [parent|e]; cbn [bind]; [|reflexivity].
  now rewrite (mutate_float_numeric rate q).
Qed.

Lemma pre_split_body_float_numeric (N L : nat) (rate : pyfloat) (q : Q)
  (flag : bool) (i : nat) (st : locals R) :
  numeric_rate rate = Some q ->
  pre_split_body_float N L rate flag i st = pre_split_body N L q flag i st.
Proof.
  intros Hq. unfold pre_split_body_float, pre_split_body.
  destruct (genetic_distance _ _ _); cbn [bind]; [|reflexivity].
  destruct (if flag then _ else _); cbn [bind]; [|reflexivity].
  now rewrite (reproduce_float_numeric rate q).
Qed.

Lemma no_split_body_float_numeric (N L : nat) (rate : pyfloat) (q : Q)
  (i : nat) (st : locals R) :
  numeric_rate rate = Some q ->
  no_split_body_float N L rate i st = no_split_body N L q i st.
Proof.
  intros Hq. unfold no_split_body_float, no_split_body.
  destruct (genetic_distance _ _ _); cbn [bind]; [|reflexivity].
  destruct (print_distance _ _ _); cbn [bind]; [|reflexivity].
  now rewrite (reproduce_float_numeric rate q).
Qed.

Lemma post_split_body_float_numeric (N L : nat) (rate : pyfloat) (q : Q)
  (flag : bool) (i : nat) (st : locals R) :
  numeric_rate rate = Some q ->
  post_split_body_float N L rate flag i st = post_split_body N L q flag i st.
Proof.
  intros Hq. unfold post_split_body_float, post_split_body.
  destruct (genetic_distance (population1 st) _ _); cbn [bind]; [|reflexivity].
  destruct (if flag then print_distance (population1 st) _ _ else _);
    cbn [bind]; [|reflexivity].
  rewrite (reproduce_float_numeric rate q) by exact Hq.
  destruct (reproduce q (population1 st) (rng st)) as [[out r1]|e];
    cbn [bind]; [|reflexivity].
  destruct (genetic_distance (population2 st) _ _); cbn [bind]; [|reflexivity].
  destruct (if flag then print_distance (population2 st) _ _ else _);
    cbn [bind]; [|reflexivity].
  now rewrite (reproduce_float_numeric rate q).
Qed.

Lemma main_float_numeric (N L : nat) (rate : pyfloat) (q : Q) (g G : nat)
  (flag : bool) (r : R) :
  numeric_rate rate = Some q ->
  main_float N L rate g G flag r = main N L q g G flag r.
Proof.
  intros Hq. unfold main_float, main.
  assert (Hsplit : split_branch_float N L rate g G flag r
                   = split_branch N L q g G flag r).
  { unfold split_branch_float, split_branch.
    rewrite (for_each_ext (range 0 g) _ (pre_split_body N L q flag))
      by (intros; now apply pre_split_body_float_numeric).
    destruct (for_each (range 0 g) _ _) as [st|e]; cbn [bind]; [|reflexivity].
    destruct (split_step N st) as [st1|e]; cbn [bind]; [|reflexivity].
    now rewrite (for_each_ext (range g G) _ (post_split_body N L q flag))
      by (intros; now apply post_split_body_float_numeric). }
  assert (Hno : no_split_branch_float N L rate G flag r
                = no_split_branch N L q G flag r).
  { unfold no_split_branch_float, no_split_branch.
    now rewrite (for_each_ext (range 0 G) _ (no_split_body N L q))
      by (intros; now apply no_split_body_float_numeric). }
  now rewrite Hsplit, Hno.
Qed.

(** ** The rate [nan] *)

Lemma mutate_site_float_nan (s : string) (i : nat) (new : string) (r : R) :
  mutate_site_float NaN s i (new, r) = Ok (new, snd (random r)).
Proof.
  unfold mutate_site_float. now destruct (random r) as [l r1].
Qed.

Lemma mutate_loop_nan (s : string) (idx : list nat) :
  forall (new : string) (r : R),
    for_each idx (mutate_site_float NaN s) (new, r)
    = Ok (new, skip_draws (List.length idx) r).
Proof.
  induction idx as [|i idx IH]; intros new r; cbn [for_each List.length skip_draws].
  - reflexivity.
  - rewrite mutate_site_float_nan. cbn [bind]. apply IH.
Qed.

(** With the rate [nan], [mutate] draws once per site and appends
    nothing. *)
Lemma mutate_float_nan (s : string) (r : R) :
  mutate_float NaN s r = Ok ("", skip_draws (String.length s) r).
Proof.
  unfold mutate_float. rewrite mutate_loop_nan.
  unfold range. now rewrite length_seq, Nat.sub_0_r.
Qed.

Lemma for_elements_reproduce_nan (pop : population) :
  forall (k : nat) (acc : population) (r : R),
    exists r' : R,
      for_elements k pop
        (fun (_ : nat) (parent : string) (st : population * R) =>
           let (new_generation, r0) := st in
           '(child, r1) <- mutate_float NaN parent r0 ;;
           Ok (new_generation ++ [child], r1))
        (acc, r)
      = Ok (acc ++ map (fun _ => "") pop, r').
Proof.
  induction pop as [|s pop IH]; intros k acc r; cbn [for_elements map].
  - exists r. now rewrite app_nil_r.
  - rewrite mutate_float_nan. cbn [bind].
    destruct (IH (S k) (acc ++ [""]) (skip_draws (String.length s) r)) as [r' Hr'].
    exists r'. etransitivity; [exact Hr'|]. now rewrite <- app_assoc.
Qed.

(** With the rate [nan], [reproduce] returns as many empty sequences as it
    was given parents. *)
Lemma reproduce_float_nan (pop : population) (r : R) :
  exists r' : R,
    reproduce_float NaN pop r = Ok (map (fun _ => "") pop, r').
Proof.
  unfold reproduce_float.
  destruct (for_elements_reproduce_nan pop 0 [] r) as [r' Hr'].
  exists r'. cbn [app] in Hr'. etransitivity; [|exact Hr'].
  apply for_each_over_list.
  intros i x [acc r0] Hx. unfold reproduce_one_float, getitem_list.
  now rewrite Hx.
Qed.

End FloatFacts.

(** X8. For every float rate and every random source, [mutate] returns
    without an exception. When the rate is not [nan] the result has the
    length of the input; when it is [nan] the result is the empty sequence.
    In every case each symbol of the result is the input symbol at that
    position or one of C, T, G, so no A is written where the input had
    none. *)
Theorem mutate_symbol_origin {R : Type} {RS : RandomSource R}
  (mutation_rate : pyfloat) (s : string) (r : R) :
  exists (out : string) (r' : R),
    mutate_float mutation_rate s r = Ok (out, r')
    /\ String.length out
       = match mutation_rate with
         | NaN => 0
         | _ => String.length s
         end
    /\ forall (i : nat) (y : ascii),
         String.get i out = Some y ->
         exists c, String.get i s = Some c
                   /\ (y = c \/ In y nucleotide_choices)
                   /\ (y = "A"%char -> c = "A"%char).
Proof.
  destruct (numeric_rate mutation_rate) as [q|] eqn:Hq.
  - destruct (mutate_origin_numeric q s r) as (out & r' & Hm & Hlen & Hsites).
    exists out, r'. rewrite (mutate_float_numeric mutation_rate q) by exact Hq.
    split; [exact Hm|]. split; [|exact Hsites].
    destruct mutation_rate; try exact Hlen. discriminate Hq.
  - destruct mutation_rate; try discriminate Hq.
    exists "", (skip_draws (String.length s) r).
    split; [apply mutate_float_nan|]. split; [reflexivity|].
    intros i y Hy. destruct i; discriminate Hy.
Qed.

Lemma mutate_symbol_origin_witness :
  (exists (out : string) (r' : nat),
     @mutate_float nat half_source (Num (1 # 2)) "AGA" 0 = Ok (out, r')
     /\ String.length out = 3)
  /\ (exists (out : string) (r' : nat),
        @mutate_float nat half_source NaN "AGA" 0 = Ok (out, r')
        /\ String.length out = 0).
Proof.
  split.
  - destruct (@mutate_symbol_origin nat half_source (Num (1 # 2)) "AGA" 0)
      as (out & r' & Hm & Hlen & _).
    exists out, r'. split; [exact Hm | exact Hlen].
  - destruct (@mutate_symbol_origin nat half_source NaN "AGA" 0)
      as (out & r' & Hm & Hlen & _).
    exists out, r'. split; [exact Hm | exact Hlen].
Defined.

(** C8. The sequence length is not kept in every run. The test of the input
    loop of [main] on the rate is false on [nan], so [nan] is a rate a run
    can have. With it [reproduce] returns, for every population, as many
    empty sequences as it was given parents. The run of [main] on a
    population of 2 sequences of 3 sites, the rate [nan], a split after
    generation 1 and 3 generations starts from two sequences AAA, raises no
    exception, and ends holding populations whose sequences are empty: not
    of length 3. *)
Theorem nan_rate_loses_sequence_length :
  rate_rejected NaN = false
  /\ (forall (R : Type) (RS : RandomSource R) (pop : population) (r : R),
        exists r' : R,
          reproduce_float NaN pop r = Ok (map (fun _ => "") pop, r'))
  /\ exists (st : locals nat) (rows : list (nat * Q)),
       @main_float nat half_source 2 3 NaN 1 3 false 0 = Ok (st, rows)
       /\ initialize_original_sequence 2 3 = ["AAA"; "AAA"]
       /\ new_generation_sequence st = [""]
       /\ population1 st = [""]
       /\ population2 st = [""]
       /\ ~ populations_uniform 3 st.
Proof.
  split; [reflexivity|].
  split; [intros R RS pop r; apply reproduce_float_nan|].
  destruct (@main_float nat half_source 2 3 NaN 1 3 false 0) as [[st rows]|e] eqn:Hmain;
    [|vm_compute in Hmain; discriminate Hmain].
  exists st, rows. split; [reflexivity|].
  vm_compute in Hmain. injection Hmain as <- _.
  cbn [new_generation_sequence population1 population2].
  repeat (split; [reflexivity|]).
  intros (_ & H1 & _). cbn [population1] in H1.
  apply Forall_inv in H1. discriminate H1.
Qed.

(** X19. When the rate is a float that is not [nan], the run on the float
    is the run on the rational it stands for: [reproduce], the bodies of
    the three loops and [main] return the same. With [N >= 1] and [L >= 1]
    every population [reproduce] returns on sequences of length [L] has
    sequences of length [L] and the size of its input, every state of the
    run holds only populations of sequences of length [L], and [main] ends
    without an exception. *)
Theorem numeric_rate_keeps_length {R : Type} {RS : RandomSource R}
  (N L : nat) (rate : pyfloat) (q : Q) (g G : nat) (flag : bool) (r : R) :
  1 <= N -> 1 <= L -> numeric_rate rate = Some q ->
  (forall (i : nat) (st : locals R),
     pre_split_body_float N L rate flag i st = pre_split_body N L q flag i st
     /\ post_split_body_float N L rate flag i st = post_split_body N L q flag i st
     /\ no_split_body_float N L rate i st = no_split_body N L q i st)
  /\ main_float N L rate g G flag r = main N L q g G flag r
  /\ (forall (pop : population) (r0 : R),
        uniform_length L pop ->
        exists out r', reproduce_float rate pop r0 = Ok (out, r')
                       /\ uniform_length L out
                       /\ List.length out = List.length pop)
  /\ Forall (populations_uniform L) (run_states N L q g G flag r)
  /\ exists res, main_float N L rate g G flag r = Ok res.
Proof.
  intros HN HL Hq.
  destruct (sequence_length_numeric_rate N L q g G flag HN HL r)
    as (_ & Hrep & _ & Hstates & _ & Hmain).
  split.
  { intros i st.
    split; [now apply pre_split_body_float_numeric|].
    split; [now apply post_split_body_float_numeric
           | now apply no_split_body_float_numeric]. }
  split; [now apply main_float_numeric|].
  split.
  { intros pop r0 Hu. rewrite (reproduce_float_numeric rate q) by exact Hq.
    now apply Hrep. }
  split; [exact Hstates|].
  rewrite (main_float_numeric N L rate q) by exact Hq. exact Hmain.
Qed.

Lemma numeric_rate_keeps_length_witness :
  Forall (populations_uniform 5) (@run_states nat half_source 4 5 (1 # 2) 2 4 true 0)
  /\ exists res, @main_float nat half_source 4 5 (Num (1 # 2)) 2 4 true 0 = Ok res.
Proof.
  destruct (@numeric_rate_keeps_length nat half_source 4 5 (Num (1 # 2)) (1 # 2)
              2 4 true 0) as (_ & _ & _ & Hstates & Hmain);
    [lia | lia | reflexivity |].
  split; [exact Hstates | exact Hmain].
Defined.
